(** * addr-gen: a vanity address search (main.go)

    A shallow embedding of [src/main.go]: the pattern test of the worker
    loop, [privateKeyToJSON], and the worker/coordinator protocol around
    the one-slot result channel, the cancellation context, the wait group
    and the atomic attempt counter. *)

From Stdlib Require Import ZArith NArith Bool Ascii String List Lia.
From Stdlib Require Import DecimalString Strings.Byte.
From stdpp Require Import base list.

Local Open Scope string_scope.

(** ** Go strings

    A Go [string] is a sequence of bytes; [String.string] is a list of
    8-bit [ascii] values, so the embedding is byte for byte. *)

Module GoStrings.

Definition byte_val (c : ascii) : N := N_of_ascii c.

(** [utf8.RuneSelf]: bytes below it are single-byte runes. *)
Definition RuneSelf : N := 128.

(** ['A' <= c && c <= 'Z'] *)
Definition isUpperByte (c : ascii) : bool :=
  ((65 <=? byte_val c) && (byte_val c <=? 90))%N.

(** [c += 'a' - 'A'] under the guard of [isUpperByte]. *)
Definition lowerByte (c : ascii) : ascii :=
  if isUpperByte c then ascii_of_N (byte_val c + 32) else c.

Fixpoint isASCII (s : string) : bool :=
  match s with
  | EmptyString => true
  | String c s' => (byte_val c <? RuneSelf)%N && isASCII s'
  end.

Fixpoint hasUpper (s : string) : bool :=
  match s with
  | EmptyString => false
  | String c s' => isUpperByte c || hasUpper s'
  end.

Fixpoint mapBytes (f : ascii -> ascii) (s : string) : string :=
  match s with
  | EmptyString => EmptyString
  | String c s' => String (f c) (mapBytes f s')
  end.

(** [strings.HasPrefix]:
    [len(s) >= len(prefix) && s[:len(prefix)] == prefix]. *)
Definition HasPrefix (s prefix : string) : bool :=
  (String.length prefix <=? String.length s)%nat
  && String.eqb (substring 0 (String.length prefix) s) prefix.

(** [strings.HasSuffix]:
    [len(s) >= len(suffix) && s[len(s)-len(suffix):] == suffix]. *)
Definition HasSuffix (s suffix : string) : bool :=
  (String.length suffix <=? String.length s)%nat
  && String.eqb
       (substring (String.length s - String.length suffix)
                  (String.length suffix) s)
       suffix.

Section ToLower.

(** [strings.Map(unicode.ToLower, s)], the path [strings.ToLower] takes
    for a string with a byte of [utf8.RuneSelf] or more.  Its case
    tables belong to the Go library, so it is a parameter here. *)
Variable unicodeLower : string -> string.

(** [strings.ToLower]: the ASCII-only path is written out. *)
Definition ToLower (s : string) : string :=
  if isASCII s then
    if hasUpper s then mapBytes lowerByte s else s
  else unicodeLower s.

End ToLower.

End GoStrings.

Import GoStrings.

(** ** The pattern test (main.go, lines 105-120) *)

Record SearchConfig := mkConfig {
  prefix : string;
  postfix : string;
  caseSensitive : bool
}.

Section Matcher.

Variable unicodeLower : string -> string.

Definition checkString (cs : bool) (s : string) : string :=
  if cs then s else ToLower unicodeLower s.

(** The two guarded [continue]s of the loop body: [true] when the
    iteration goes on to publish. *)
Definition matches (address : string) (cfg : SearchConfig) : bool :=
  let checkAddress := checkString (caseSensitive cfg) address in
  let checkPrefix := checkString (caseSensitive cfg) (prefix cfg) in
  let checkPostfix := checkString (caseSensitive cfg) (postfix cfg) in
  if negb (String.eqb (prefix cfg) "")
     && negb (HasPrefix checkAddress checkPrefix) then false
  else if negb (String.eqb (postfix cfg) "")
          && negb (HasSuffix checkAddress checkPostfix) then false
  else true.

(** [lower_fields] of the specification. *)
Definition lower_fields (cfg : SearchConfig) : SearchConfig :=
  {| prefix := ToLower unicodeLower (prefix cfg);
     postfix := ToLower unicodeLower (postfix cfg);
     caseSensitive := caseSensitive cfg |}.

End Matcher.

(** The specification's reading of "starts with" and "ends with". *)
Definition starts_with (s p : string) : Prop := exists rest, s = p ++ rest.
Definition ends_with (s q : string) : Prop := exists front, s = front ++ q.

(** ** Keys and results *)

Definition PublicKey := list Byte.byte.
Definition PrivateKey := list Byte.byte.

Record Result := mkResult {
  Address : string;
  ResPublicKey : PublicKey;
  ResPrivateKey : PrivateKey
}.

(** [int(b)] for a byte [b]. *)
Definition intOfByte (b : Byte.byte) : Z := Z.of_N (Byte.to_N b).

(** ** encoding/json, as far as [privateKeyToJSON] reaches it *)

Module JSON.

(** The Go values handed to the encoder: an [int], a non-nil slice, and a
    value of a kind the encoder refuses (a channel). *)
#[warnings="-register-all"]
Inductive GoValue :=
| VInt (n : Z)
| VSlice (elems : list GoValue)
| VChan.

Inductive MarshalError := UnsupportedTypeError.

Definition nl : string := String "010" EmptyString.

Fixpoint repeatString (s : string) (n : nat) : string :=
  match n with
  | O => EmptyString
  | S n' => s ++ repeatString s n'
  end.

(** The line break of [json.Indent]: a newline, the prefix, and [depth]
    copies of the indent. *)
Definition newline (pfx indent : string) (depth : nat) : string :=
  nl ++ pfx ++ repeatString indent depth.

(** [strconv.FormatInt(n, 10)] *)
Definition formatInt (n : Z) : string :=
  NilZero.string_of_int (Z.to_int n).

Fixpoint collect {A E : Type} (xs : list (A + E)) : list A + E :=
  match xs with
  | [] => inl []
  | inr e :: _ => inr e
  | inl a :: rest =>
      match collect rest with
      | inl l => inl (a :: l)
      | inr e => inr e
      end
  end.

Fixpoint join (sep : string) (parts : list string) : string :=
  match parts with
  | [] => EmptyString
  | [p] => p
  | p :: rest => p ++ sep ++ join sep rest
  end.

Fixpoint marshalAt (pfx indent : string) (depth : nat) (v : GoValue)
  : string + MarshalError :=
  match v with
  | VInt n => inl (formatInt n)
  | VChan => inr UnsupportedTypeError
  | VSlice [] => inl "[]"
  | VSlice elems =>
      match collect (map (marshalAt pfx indent (S depth)) elems) with
      | inr e => inr e
      | inl parts =>
          inl ("[" ++ newline pfx indent (S depth)
                   ++ join ("," ++ newline pfx indent (S depth)) parts
                   ++ newline pfx indent depth ++ "]")
      end
  end.

(** [json.MarshalIndent(v, prefix, indent)] *)
Definition MarshalIndent (v : GoValue) (pfx indent : string)
  : string + MarshalError :=
  marshalAt pfx indent 0 v.

(** Modelled from the spec: the reader of the round trip, "parsing that
    array back into bytes".  The repository has no JSON reader; this one
    accepts a JSON array of unsigned decimal integers with JSON white
    space around the tokens, and refuses an element above 255. *)
Inductive pstate :=
| PStart          (* before the opening bracket *)
| POpen           (* after the opening bracket *)
| PNum (n : N)    (* inside a number, [n] read so far *)
| PAfterNum       (* after a number and white space *)
| PComma          (* after a comma *)
| PEnd.           (* after the closing bracket *)

Definition isSpace (c : ascii) : bool :=
  let n := N_of_ascii c in
  ((n =? 32) || (n =? 10) || (n =? 13) || (n =? 9))%N.

Definition digitOf (c : ascii) : option N :=
  let n := N_of_ascii c in
  if ((48 <=? n) && (n <=? 57))%N then Some (n - 48)%N else None.

Definition isOpen (c : ascii) : bool := (N_of_ascii c =? 91)%N.
Definition isClose (c : ascii) : bool := (N_of_ascii c =? 93)%N.
Definition isComma (c : ascii) : bool := (N_of_ascii c =? 44)%N.

(** What follows a complete element: white space, a comma or the end. *)
Definition afterElem (c : ascii) : option pstate :=
  if isSpace c then Some PAfterNum
  else if isComma c then Some PComma
  else if isClose c then Some PEnd
  else None.

Fixpoint parseFrom (st : pstate) (acc : list Byte.byte) (s : string)
  : option (list Byte.byte) :=
  match s with
  | EmptyString =>
      match st with
      | PEnd => Some (rev acc)
      | _ => None
      end
  | String c s' =>
      match st with
      | PStart =>
          if isSpace c then parseFrom PStart acc s'
          else if isOpen c then parseFrom POpen acc s'
          else None
      | POpen =>
          if isSpace c then parseFrom POpen acc s'
          else if isClose c then parseFrom PEnd acc s'
          else match digitOf c with
               | Some d => parseFrom (PNum d) acc s'
               | None => None
               end
      | PNum n =>
          match digitOf c with
          | Some d => parseFrom (PNum (10 * n + d)%N) acc s'
          | None =>
              match Byte.of_N n, afterElem c with
              | Some b, Some st' => parseFrom st' (b :: acc) s'
              | _, _ => None
              end
          end
      | PAfterNum =>
          if isSpace c then parseFrom PAfterNum acc s'
          else if isComma c then parseFrom PComma acc s'
          else if isClose c then parseFrom PEnd acc s'
          else None
      | PComma =>
          if isSpace c then parseFrom PComma acc s'
          else match digitOf c with
               | Some d => parseFrom (PNum d) acc s'
               | None => None
               end
      | PEnd =>
          if isSpace c then parseFrom PEnd acc s' else None
      end
  end.

Definition parseBytes (s : string) : option (list Byte.byte) :=
  parseFrom PStart [] s.

(** The text between the elements of a top-level array under
    [MarshalIndent(v, "", "  ")], and the text that closes it. *)
Definition sep : string := "," ++ newline "" "  " 1.
Definition closing : string := newline "" "  " 0 ++ "]".

(** What follows the digits of an element: the remaining elements. *)
Fixpoint restOf (bs : list Byte.byte) : string :=
  match bs with
  | [] => closing
  | b :: bs' => sep ++ formatInt (intOfByte b) ++ restOf bs'
  end.

End JSON.

(** [privateKeyToJSON] (main.go, lines 29-39). *)
Definition privateKeyToJSON (privateKey : PrivateKey)
  : string + JSON.MarshalError :=
  let ints := map intOfByte privateKey in
  match JSON.MarshalIndent (JSON.VSlice (map JSON.VInt ints)) "" "  " with
  | inr err => inr err
  | inl data => inl data
  end.

(** ** The search: workers and coordinator (main.go, lines 63-154)

    Each goroutine is a program counter; a step runs one goroutine up to
    its next access to shared state.  The shared state is the result
    channel (a buffer of capacity one), the cancellation flag of the
    context, the wait group counter, the attempt counter and the entropy
    consumed so far. *)

(** [int64] arithmetic of [atomic.AddInt64] wraps around. *)
Definition wrapInt64 (z : Z) : Z := ((z + 2 ^ 63) mod 2 ^ 64 - 2 ^ 63)%Z.

(** Where a worker goroutine stands (lines 88-135). *)
Inductive WorkerPC :=
| WCheck                 (* line 92: select on ctx.Done() with default *)
| WCount                 (* line 97: atomic.AddInt64 *)
| WGenerate              (* lines 98-120: GenerateKey, encode, test *)
| WPublish (r : Result)  (* line 123: select, send or ctx.Done() *)
| WCancel                (* line 129: cancel() after a send *)
| WExit                  (* return: the deferred wg.Done() *)
| WDone.                 (* the goroutine has ended *)

Inductive AppError :=
| ErrNoPattern                          (* line 69 *)
| ErrJSON (e : JSON.MarshalError).      (* line 150 *)

(** Where the coordinator (the Action function) stands. *)
Inductive CoordPC :=
| CValidate                      (* line 68 *)
| CSpawn (i : Z)                 (* line 86: the loop test with counter i *)
| CReceive                       (* line 139: <-resultCh *)
| CWait (r : Result)             (* line 140: wg.Wait() *)
| CReport (r : Result)           (* lines 141-152 *)
| CReturn (err : option AppError)  (* return: the deferred cancel() *)
| CExit (err : option AppError).   (* Action has returned *)

(** What is printed; the elapsed time of line 144 is left out. *)
Inductive Line :=
| LStarted                       (* line 72 *)
| LFound (address : string)      (* line 143 *)
| LAttempts (n : Z)              (* line 144 *)
| LPublicKey (text : string)     (* line 145 *)
| LPrivateKey (text : string)    (* line 146 *)
| LPrivateKeyJSON (text : string).  (* line 152 *)

(** The case the [select] of line 123 takes.  A case can be taken when
    its communication can proceed: the send when the buffer has room, the
    receive from [ctx.Done()] when the context is cancelled.  With both
    ready Go picks either; with neither the goroutine waits, which is a
    move that is not enabled here. *)
Inductive SelectCase := CaseSend | CaseDone.

Inductive Action :=
| Coord                               (* the coordinator moves *)
| Work (i : nat) (c : SelectCase).    (* worker i moves; c counts at line 123 only *)

Record State := mkState {
  coord : CoordPC;
  workers : list WorkerPC;
  resultCh : list Result;      (* buffered channel of capacity 1 *)
  ctxDone : bool;              (* ctx.Done() is closed *)
  wg : Z;                      (* sync.WaitGroup counter *)
  totalIterations : Z;         (* int64, shared *)
  drawn : nat;                 (* calls of GenerateKey so far *)
  output : list Line;
  sent : list (nat * Result)   (* history: every completed send, oldest first *)
}.

Definition set_coord (c : CoordPC) (s : State) : State :=
  mkState c (workers s) (resultCh s) (ctxDone s) (wg s)
          (totalIterations s) (drawn s) (output s) (sent s).
Definition set_workers (w : list WorkerPC) (s : State) : State :=
  mkState (coord s) w (resultCh s) (ctxDone s) (wg s)
          (totalIterations s) (drawn s) (output s) (sent s).
Definition set_resultCh (ch : list Result) (s : State) : State :=
  mkState (coord s) (workers s) ch (ctxDone s) (wg s)
          (totalIterations s) (drawn s) (output s) (sent s).
Definition set_ctxDone (b : bool) (s : State) : State :=
  mkState (coord s) (workers s) (resultCh s) b (wg s)
          (totalIterations s) (drawn s) (output s) (sent s).
Definition set_wg (n : Z) (s : State) : State :=
  mkState (coord s) (workers s) (resultCh s) (ctxDone s) n
          (totalIterations s) (drawn s) (output s) (sent s).
Definition set_totalIterations (n : Z) (s : State) : State :=
  mkState (coord s) (workers s) (resultCh s) (ctxDone s) (wg s)
          n (drawn s) (output s) (sent s).
Definition set_drawn (n : nat) (s : State) : State :=
  mkState (coord s) (workers s) (resultCh s) (ctxDone s) (wg s)
          (totalIterations s) n (output s) (sent s).
Definition set_output (o : list Line) (s : State) : State :=
  mkState (coord s) (workers s) (resultCh s) (ctxDone s) (wg s)
          (totalIterations s) (drawn s) o (sent s).
Definition set_sent (h : list (nat * Result)) (s : State) : State :=
  mkState (coord s) (workers s) (resultCh s) (ctxDone s) (wg s)
          (totalIterations s) (drawn s) (output s) h.

Definition set_worker (i : nat) (pc : WorkerPC) (s : State) : State :=
  set_workers (<[i:=pc]> (workers s)) s.

(** [make(chan Result, 1)] *)
Definition resultChCap : nat := 1.

Definition init : State :=
  mkState CValidate [] [] false 0 0 0 [] [].

Section Search.

(** Parameters of a run: the Unicode path of [strings.ToLower],
    [base58.Encode], the outcomes of the successive calls of
    [ed25519.GenerateKey(rand.Reader)] ([None] for an error),
    [runtime.NumCPU()], and the flags. *)
Variable unicodeLower : string -> string.
Variable base58Encode : list Byte.byte -> string.
Variable keySource : nat -> option (PublicKey * PrivateKey).
Variable NumCPU : Z.
Variable cfg : SearchConfig.

(** One move of worker [i]. *)
Definition worker_step (i : nat) (c : SelectCase) (s : State)
  : option State :=
  match workers s !! i with
  | None => None
  | Some WCheck =>
      if ctxDone s then Some (set_worker i WExit s)
      else Some (set_worker i WCount s)
  | Some WCount =>
      Some (set_worker i WGenerate
              (set_totalIterations (wrapInt64 (totalIterations s + 1)) s))
  | Some WGenerate =>
      let s' := set_drawn (S (drawn s)) s in
      match keySource (drawn s) with
      | None => Some (set_worker i WCheck s')
      | Some (publicKey, privateKey) =>
          let address := base58Encode publicKey in
          if matches unicodeLower address cfg
          then Some (set_worker i
                       (WPublish (mkResult address publicKey privateKey)) s')
          else Some (set_worker i WCheck s')
      end
  | Some (WPublish r) =>
      match c with
      | CaseSend =>
          if (length (resultCh s) <? resultChCap)%nat
          then Some (set_worker i WCancel
                       (set_sent (sent s ++ [(i, r)])%list
                          (set_resultCh (resultCh s ++ [r])%list s)))
          else None
      | CaseDone =>
          if ctxDone s then Some (set_worker i WExit s) else None
      end
  | Some WCancel => Some (set_worker i WExit (set_ctxDone true s))
  | Some WExit => Some (set_worker i WDone (set_wg (wg s - 1)%Z s))
  | Some WDone => None
  end.

(** Lines 143-152, with the attempt counter as read at line 144. *)
Definition report (r : Result) (attempts : Z)
  : list Line * option AppError :=
  let first4 :=
    [ LFound (Address r);
      LAttempts attempts;
      LPublicKey (base58Encode (ResPublicKey r));
      LPrivateKey (base58Encode (ResPrivateKey r)) ] in
  match privateKeyToJSON (ResPrivateKey r) with
  | inr err => (first4, Some (ErrJSON err))
  | inl pkJSON => ((first4 ++ [LPrivateKeyJSON pkJSON])%list, None)
  end.

(** One move of the coordinator.  The loop counter of line 86 is below
    [NumCPU] when it is incremented, so [i + 1] does not wrap; the error
    return of line 69 comes before [defer cancel()] is reached. *)
Definition coord_step (s : State) : option State :=
  match coord s with
  | CValidate =>
      if String.eqb (prefix cfg) "" && String.eqb (postfix cfg) ""
      then Some (set_coord (CExit (Some ErrNoPattern)) s)
      else Some (set_coord (CSpawn 0) (set_output (output s ++ [LStarted])%list s))
  | CSpawn i =>
      if (i <? NumCPU)%Z
      then Some (set_coord (CSpawn (i + 1))
                   (set_workers (workers s ++ [WCheck])%list
                      (set_wg (wg s + 1)%Z s)))
      else Some (set_coord CReceive s)
  | CReceive =>
      match resultCh s with
      | r :: rest => Some (set_coord (CWait r) (set_resultCh rest s))
      | [] => None
      end
  | CWait r =>
      if (wg s =? 0)%Z then Some (set_coord (CReport r) s) else None
  | CReport r =>
      let (lines, err) := report r (totalIterations s) in
      Some (set_coord (CReturn err) (set_output (output s ++ lines)%list s))
  | CReturn err => Some (set_coord (CExit err) (set_ctxDone true s))
  | CExit _ => None
  end.

Definition step (a : Action) (s : State) : option State :=
  match a with
  | Coord => coord_step s
  | Work i c => worker_step i c s
  end.

(** Running a schedule: [None] when a move of it is not enabled. *)
Fixpoint exec (sched : list Action) (s : State) : option State :=
  match sched with
  | [] => Some s
  | a :: rest =>
      match step a s with
      | Some s' => exec rest s'
      | None => None
      end
  end.

(** The state a schedule leads to from the start; the start itself
    when a move of the schedule is not enabled. *)
Definition stateAfter (sched : list Action) : State :=
  match exec sched init with
  | Some s => s
  | None => init
  end.

Inductive reachable : State -> Prop :=
| reach_init : reachable init
| reach_step a s s' : reachable s -> step a s = Some s' -> reachable s'.

(** The coordinator holds a received Result. *)
Definition received (s : State) : option Result :=
  match coord s with
  | CWait r | CReport r => Some r
  | _ => None
  end.

(** Worker [i] is past its send. *)
Definition pastSend (pc : WorkerPC) : bool :=
  match pc with
  | WCancel | WExit | WDone => true
  | _ => false
  end.

End Search.

(** How many Results the coordinator has taken from the channel: none
    before line 139 and on the error return of line 69, one after. *)
Definition receivedCount (c : CoordPC) : nat :=
  match c with
  | CValidate | CSpawn _ | CReceive => 0
  | CWait _ | CReport _ => 1
  | CReturn e | CExit e =>
      match e with
      | Some ErrNoPattern => 0
      | _ => 1
      end
  end.

(** The channel holds the sent Results the coordinator has not taken,
    in the order of sending. *)
Definition channel_inv (s : State) : Prop :=
  resultCh s = map snd (drop (receivedCount (coord s)) (sent s)) /\
  (receivedCount (coord s) <= length (sent s))%nat /\
  (forall r, received s = Some r -> exists i, head (sent s) = Some (i, r)).

(** Every sender is past its send, and has sent once. *)
Definition senders_inv (s : State) : Prop :=
  NoDup (map fst (sent s)) /\
  (forall i r, In (i, r) (sent s) ->
               exists pc, workers s !! i = Some pc /\ pastSend pc = true).


(** The address of a Result is the encoding of its public key. *)
Definition wfResult (encode : list Byte.byte -> string) (r : Result) : Prop :=
  encode (ResPublicKey r) = Address r.

(** ** Invariants of a run *)

Section Invariants.

Variable base58Encode : list Byte.byte -> string.
Variable NumCPU : Z.
Variable cfg : SearchConfig.

(** Every Result a worker holds or has sent is well formed. *)
Definition results_inv (s : State) : Prop :=
  (forall i r, workers s !! i = Some (WPublish r) ->
               wfResult base58Encode r) /\
  (forall i r, In (i, r) (sent s) -> wfResult base58Encode r).

(** What is printed before the report is the start line alone; the
    report prints the address of the Result and the encoding of its
    public key. *)
Definition output_inv (s : State) : Prop :=
  match coord s with
  | CReturn _ | CExit _ =>
      forall a t, In (LFound a) (output s) ->
                  In (LPublicKey t) (output s) -> t = a
  | CReport r | CWait r =>
      wfResult base58Encode r /\
      forall l, In l (output s) -> l = LStarted
  | _ => forall l, In l (output s) -> l = LStarted
  end.

(** How many workers there are at each point of the coordinator. *)
Definition spawn_inv (s : State) : Prop :=
  match coord s with
  | CValidate => workers s = []
  | CSpawn i =>
      (0 <= i <= Z.max 0 NumCPU)%Z /\ length (workers s) = Z.to_nat i
  | CExit (Some ErrNoPattern) =>
      workers s = [] /\ prefix cfg = "" /\ postfix cfg = ""
  | CReturn (Some ErrNoPattern) => False
  | _ => length (workers s) = Z.to_nat NumCPU
  end.

End Invariants.

(** ** Base58

    [base58.Encode] of github.com/mr-tron/base58, which is not part of
    this repository: the Bitcoin alphabet, one ['1'] for each leading
    zero byte, then the digits of the input read as a big-endian number.
    The properties of the search take the encoder as a parameter; this
    definition serves the concrete runs. *)

Module Base58.

Definition alphabet : string :=
  "123456789ABCDEFGHJKLMNPQRSTUVWXYZabcdefghijkmnopqrstuvwxyz".

Definition digitChar (d : N) : ascii :=
  match String.get (N.to_nat d) alphabet with
  | Some c => c
  | None => "1"%char
  end.

Fixpoint valueOf (bin : list Byte.byte) (acc : N) : N :=
  match bin with
  | [] => acc
  | b :: rest => valueOf rest (acc * 256 + Byte.to_N b)%N
  end.

Fixpoint leadingZeros (bin : list Byte.byte) : nat :=
  match bin with
  | x00 :: rest => S (leadingZeros rest)
  | _ => 0
  end.

(** The digits of [n], most significant first, in front of [acc]; the
    binary size of [n] bounds their number. *)
Fixpoint digits (fuel : nat) (n : N) (acc : string) : string :=
  match fuel with
  | O => acc
  | S fuel' =>
      if (n =? 0)%N then acc
      else digits fuel' (n / 58)%N (String (digitChar (n mod 58)%N) acc)
  end.

Definition Encode (bin : list Byte.byte) : string :=
  let n := valueOf bin 0 in
  JSON.repeatString "1" (leadingZeros bin) ++ digits (N.size_nat n) n "".

End Base58.

(** ** Concrete runs *)

Module Demo.

(** Only ASCII strings occur below, so the Unicode path is never taken. *)
Definition noUnicode (s : string) : string := s.

(** A key source whose every public key starts with a zero byte, so that
    every address starts with ['1']; the private key is a seed followed
    by the public key, as [ed25519] lays it out. *)
Definition zeroKey (n : nat) : PublicKey :=
  x00 :: match Byte.of_N (N.of_nat n mod 256) with
         | Some b => b
         | None => x00
         end :: repeat x07 30.

Definition zeroKeys (n : nat) : option (PublicKey * PrivateKey) :=
  Some (zeroKey n, (repeat x09 32 ++ zeroKey n)%list).

Definition cfgOne : SearchConfig := mkConfig "1" "" true.

(** A key source that fails once and then behaves as [zeroKeys]. *)
Definition failFirst (n : nat) : option (PublicKey * PrivateKey) :=
  match n with
  | O => None
  | S _ => zeroKeys n
  end.

(** The three keys of the prefix scenario: their Base58 texts are
    [xyz], [bbb] and [AAAxyz123]. *)
Definition pkXyz : PublicKey := [x02; xdf; xa5].
Definition pkBbb : PublicKey := [x01; xc6; x9e].
Definition pkAAA : PublicKey := [x04; x2a; xac; x31; x3d; x13; xc4].

Definition scenarioKeys (n : nat) : option (PublicKey * PrivateKey) :=
  match n with
  | 0 => Some (pkXyz, (x01 :: pkXyz))
  | 1 => Some (pkBbb, (x02 :: pkBbb))
  | _ => Some (pkAAA, (x03 :: pkAAA))
  end.

Definition cfgAAA : SearchConfig := mkConfig "AAA" "" true.

(** Two workers find a key each; the coordinator takes the first Result
    between the two sends. *)
Definition raceSchedule : list Action :=
  [ Coord; Coord; Coord; Coord;
    Work 0 CaseSend; Work 0 CaseSend; Work 0 CaseSend;
    Work 1 CaseSend; Work 1 CaseSend; Work 1 CaseSend;
    Work 0 CaseSend;      (* worker 0 sends *)
    Coord;                (* the coordinator receives *)
    Work 0 CaseSend ].    (* worker 0 calls cancel() *)

(** A complete run of one worker. *)
Definition soloSchedule : list Action :=
  [ Coord; Coord; Coord;
    Work 0 CaseSend; Work 0 CaseSend; Work 0 CaseSend;
    Work 0 CaseSend; Work 0 CaseSend; Work 0 CaseSend;
    Work 0 CaseSend; Work 0 CaseSend; Work 0 CaseSend;
    Work 0 CaseSend; Work 0 CaseSend; Work 0 CaseSend;
    Coord; Coord; Coord; Coord ].

(** The race, continued: worker 1 sends as well, and calls cancel(). *)
Definition raceScheduleOn : list Action :=
  (raceSchedule ++ [Work 1 CaseSend; Work 1 CaseSend])%list.

(** Up to the first call of [GenerateKey]. *)
Definition firstDraw : list Action :=
  [ Coord; Coord; Work 0 CaseSend; Work 0 CaseSend ].

Definition cfgEmpty : SearchConfig := mkConfig "" "" true.

End Demo.

(** ** The prefix scenario

    What the states of a run with one worker look like when the third
    key is the first to pass the test. *)

Section ScenarioShape.

Variables pk3 : PublicKey.
Variables sk3 : PrivateKey.

Definition thirdResult : Result := mkResult "AAAxyz123" pk3 sk3.

(** The shared state from where the one worker stands. *)
Definition worker_ok (s : State) (w : WorkerPC) : Prop :=
  match w with
  | WCheck | WCount =>
      drawn s < 3 /\ totalIterations s = Z.of_nat (drawn s)
  | WGenerate =>
      drawn s < 3 /\ totalIterations s = (Z.of_nat (drawn s) + 1)%Z
  | WPublish r =>
      r = thirdResult /\ drawn s = 3 /\ totalIterations s = 3%Z
  | WCancel | WExit | WDone =>
      drawn s = 3 /\ totalIterations s = 3%Z
  end
  /\ sent s = (if pastSend w then [(0, thirdResult)] else [])
  /\ ctxDone s = match w with WExit | WDone => true | _ => false end
  /\ wg s = match w with WDone => 0%Z | _ => 1%Z end.

Definition shared_ok (s : State) : Prop :=
  match workers s with
  | [] => drawn s = 0 /\ totalIterations s = 0%Z /\ sent s = []
          /\ ctxDone s = false /\ wg s = 0%Z
  | [w] => worker_ok s w
  | _ => False
  end.

Definition fullReport (encode : list Byte.byte -> string) (text : string)
  : list Line :=
  [ LStarted; LFound "AAAxyz123"; LAttempts 3;
    LPublicKey (encode pk3); LPrivateKey (encode sk3);
    LPrivateKeyJSON text ].

Definition coord_ok (encode : list Byte.byte -> string) (s : State) : Prop :=
  match coord s with
  | CValidate => workers s = [] /\ output s = []
  | CSpawn i =>
      ((i = 0%Z /\ workers s = []) \/ (i = 1%Z /\ length (workers s) = 1))
      /\ output s = [LStarted]
  | CReceive => length (workers s) = 1 /\ output s = [LStarted]
  | CWait r =>
      r = thirdResult /\ length (workers s) = 1 /\ output s = [LStarted]
  | CReport r =>
      r = thirdResult /\ workers s = [WDone] /\ output s = [LStarted]
  | CReturn e | CExit e =>
      e = None /\ workers s = [WDone] /\
      exists text, privateKeyToJSON sk3 = inl text
                   /\ output s = fullReport encode text
  end.

Definition scen_inv (encode : list Byte.byte -> string) (s : State) : Prop :=
  coord_ok encode s /\ shared_ok s.

End ScenarioShape.

(** ** Further invariants of a run *)

Definition isGenerating (pc : WorkerPC) : bool :=
  match pc with
  | WGenerate => true
  | _ => false
  end.

Definition notDone (pc : WorkerPC) : bool :=
  match pc with
  | WDone => false
  | _ => true
  end.

(** The goroutine has left its loop by a [return]. *)
Definition hasReturned (pc : WorkerPC) : bool :=
  match pc with
  | WExit | WDone => true
  | _ => false
  end.

(** How many workers stand at a place that [p] accepts. *)
Fixpoint countPC (p : WorkerPC -> bool) (ws : list WorkerPC) : nat :=
  match ws with
  | [] => 0
  | w :: rest => (if p w then 1 else 0) + countPC p rest
  end.

(** The coordinator is past [wg.Wait()] (line 140). *)
Definition pastWait (c : CoordPC) : bool :=
  match c with
  | CReport _ => true
  | CReturn e | CExit e =>
      match e with
      | Some ErrNoPattern => false
      | _ => true
      end
  | _ => false
  end.

(** The six lines of a run that found [r] and counted [n] attempts. *)
Definition reportOf (encode : list Byte.byte -> string) (r : Result)
           (n : Z) (text : string) : list Line :=
  [ LStarted; LFound (Address r); LAttempts n;
    LPublicKey (encode (ResPublicKey r));
    LPrivateKey (encode (ResPrivateKey r));
    LPrivateKeyJSON text ].

Section MoreInvariants.

Variable unicodeLower : string -> string.
Variable base58Encode : list Byte.byte -> string.
Variable keySource : nat -> option (PublicKey * PrivateKey).
Variable cfg : SearchConfig.

(** [r] is what line 124 builds from one call of [GenerateKey] among
    the first [n], for a key whose address passes the test. *)
Definition foundBy (n : nat) (r : Result) : Prop :=
  Address r = base58Encode (ResPublicKey r) /\
  matches unicodeLower (Address r) cfg = true /\
  exists k, k < n /\ keySource k = Some (ResPublicKey r, ResPrivateKey r).

(** Every Result a worker holds or has sent was found by a draw. *)
Definition found_inv (s : State) : Prop :=
  (forall i r, workers s !! i = Some (WPublish r) -> foundBy (drawn s) r) /\
  (forall i r, In (i, r) (sent s) -> foundBy (drawn s) r).

(** The wait group counts the workers that have not ended; workers
    return only under cancellation, and cancellation follows a send. *)
Definition join_inv (s : State) : Prop :=
  wg s = Z.of_nat (countPC notDone (workers s)) /\
  (forall i pc, workers s !! i = Some pc -> hasReturned pc = true ->
                ctxDone s = true) /\
  ((ctxDone s = true \/ exists i, workers s !! i = Some WCancel) ->
   sent s <> []) /\
  (pastWait (coord s) = true ->
   forall i pc, workers s !! i = Some pc -> pc = WDone).

(** The attempt counter is the number of keys drawn plus the number of
    workers inside [GenerateKey], in [int64]. *)
Definition counter_inv (s : State) : Prop :=
  totalIterations s
  = wrapInt64 (Z.of_nat (drawn s + countPC isGenerating (workers s))).

(** What has been printed, by where the coordinator stands. *)
Definition printed_inv (s : State) : Prop :=
  match coord s with
  | CValidate => output s = []
  | CSpawn _ | CReceive | CWait _ | CReport _ => output s = [LStarted]
  | CReturn e | CExit e =>
      match e with
      | Some ErrNoPattern => output s = []
      | Some (ErrJSON _) => False
      | None =>
          exists i r text,
            head (sent s) = Some (i, r) /\
            privateKeyToJSON (ResPrivateKey r) = inl text /\
            output s = reportOf base58Encode r (totalIterations s) text
      end
  end.

End MoreInvariants.

(** ** More concrete runs *)

Module DemoMore.

(** An entropy source that always fails. *)
Definition neverKeys (n : nat) : option (PublicKey * PrivateKey) := None.

(** Two workers, three attempts between them. *)
Definition idleSchedule : list Action :=
  [ Coord; Coord; Coord; Coord;
    Work 0 CaseSend; Work 0 CaseSend; Work 0 CaseSend;
    Work 1 CaseSend; Work 1 CaseSend; Work 1 CaseSend;
    Work 0 CaseSend; Work 0 CaseSend ].

End DemoMore.

(** ** The spawn loop alone

    The states of the coordinator's first moves when no worker has moved
    yet: inside the loop of line 86 with [j] workers started, and past
    it with [n]. *)




(** * Properties *)

(** ** Strings *)

Section StringFacts.

Lemma length_app_string (s t : string) :
  String.length (s ++ t) = String.length s + String.length t.
Proof. induction s as [|c s IH]; simpl; [reflexivity | now rewrite IH]. Qed.

Lemma substring_whole (s : string) : substring 0 (String.length s) s = s.
Proof. induction s as [|c s IH]; simpl; [reflexivity | now rewrite IH]. Qed.

Lemma substring_app_front (p r : string) :
  substring 0 (String.length p) (p ++ r) = p.
Proof.
  induction p as [|c p IH]; simpl.
  - destruct r; reflexivity.
  - now rewrite IH.
Qed.

Lemma substring_app_back (f q : string) :
  substring (String.length f) (String.length q) (f ++ q) = q.
Proof.
  induction f as [|c f IH]; simpl; [apply substring_whole | exact IH].
Qed.

Lemma substring_split (s : string) (n : nat) :
  n <= String.length s ->
  s = substring 0 n s ++ substring n (String.length s - n) s.
Proof.
  revert n. induction s as [|c s IH]; intros n Hn.
  - destruct n; reflexivity.
  - destruct n as [|n]; simpl.
    + now rewrite substring_whole.
    + simpl in Hn. f_equal. apply IH. lia.
Qed.

Lemma length_substring (s : string) (n m : nat) :
  n + m <= String.length s -> String.length (substring n m s) = m.
Proof.
  revert n m. induction s as [|c s IH]; intros n m H; simpl in H.
  - destruct n, m; simpl; lia.
  - destruct n as [|n]; simpl.
    + destruct m as [|m]; simpl; [reflexivity|]. f_equal.
      apply (IH 0 m). lia.
    + apply IH. lia.
Qed.

Lemma HasPrefix_spec (s p : string) :
  HasPrefix s p = true <-> starts_with s p.
Proof.
  unfold HasPrefix, starts_with. split.
  - intros H. apply andb_prop in H as [Hlen Heq].
    apply Nat.leb_le in Hlen. apply String.eqb_eq in Heq.
    exists (substring (String.length p)
                      (String.length s - String.length p) s).
    pose proof (substring_split s (String.length p) Hlen) as Hsplit.
    now rewrite Heq in Hsplit.
  - intros [rest ->]. apply andb_true_intro. split.
    + apply Nat.leb_le. rewrite length_app_string. lia.
    + apply String.eqb_eq, substring_app_front.
Qed.

Lemma HasSuffix_spec (s q : string) :
  HasSuffix s q = true <-> ends_with s q.
Proof.
  unfold HasSuffix, ends_with. split.
  - intros H. apply andb_prop in H as [Hlen Heq].
    apply Nat.leb_le in Hlen. apply String.eqb_eq in Heq.
    exists (substring 0 (String.length s - String.length q) s).
    pose proof (substring_split s (String.length s - String.length q))
      as Hsplit.
    replace (String.length s - (String.length s - String.length q))
      with (String.length q) in Hsplit by lia.
    rewrite Heq in Hsplit. apply Hsplit. lia.
  - intros [front ->]. apply andb_true_intro. split.
    + apply Nat.leb_le. rewrite length_app_string. lia.
    + apply String.eqb_eq. rewrite length_app_string.
      replace (String.length front + String.length q - String.length q)
        with (String.length front) by lia.
      apply substring_app_back.
Qed.

Lemma HasPrefix_empty (s : string) : HasPrefix s "" = true.
Proof. apply HasPrefix_spec. now exists s. Qed.

Lemma app_empty_r (s : string) : s ++ "" = s.
Proof. induction s as [|c s IH]; simpl; [reflexivity | now rewrite IH]. Qed.

Lemma HasSuffix_empty (s : string) : HasSuffix s "" = true.
Proof. apply HasSuffix_spec. exists s. now rewrite app_empty_r. Qed.

Lemma lowerByte_not_upper (c : ascii) : isUpperByte (lowerByte c) = false.
Proof.
  destruct c as [b0 b1 b2 b3 b4 b5 b6 b7].
  destruct b0, b1, b2, b3, b4, b5, b6, b7; reflexivity.
Qed.

Lemma lowerByte_ascii (c : ascii) :
  (byte_val (lowerByte c) <? RuneSelf)%N = (byte_val c <? RuneSelf)%N.
Proof.
  destruct c as [b0 b1 b2 b3 b4 b5 b6 b7].
  destruct b0, b1, b2, b3, b4, b5, b6, b7; reflexivity.
Qed.

Lemma isASCII_mapBytes_lower (s : string) :
  isASCII (mapBytes lowerByte s) = isASCII s.
Proof.
  induction s as [|c s IH]; simpl; [reflexivity|].
  now rewrite lowerByte_ascii, IH.
Qed.

Lemma hasUpper_mapBytes_lower (s : string) :
  hasUpper (mapBytes lowerByte s) = false.
Proof.
  induction s as [|c s IH]; simpl; [reflexivity|].
  now rewrite lowerByte_not_upper, IH.
Qed.

Variable unicodeLower : string -> string.

Lemma ToLower_empty : ToLower unicodeLower "" = "".
Proof. reflexivity. Qed.

(** On ASCII input [ToLower] is idempotent whatever the Unicode path
    does; beyond ASCII it is as soon as the Unicode path produces
    strings that [ToLower] leaves alone. *)
Lemma ToLower_idem :
  (forall s, isASCII s = false ->
             ToLower unicodeLower (unicodeLower s) = unicodeLower s) ->
  forall s, ToLower unicodeLower (ToLower unicodeLower s)
            = ToLower unicodeLower s.
Proof.
  intros Hu s. unfold ToLower at 2 3.
  destruct (isASCII s) eqn:Ha.
  - destruct (hasUpper s) eqn:Hup.
    + unfold ToLower.
      now rewrite isASCII_mapBytes_lower, Ha, hasUpper_mapBytes_lower.
    + unfold ToLower. now rewrite Ha, Hup.
  - now apply Hu.
Qed.

End StringFacts.

(** ** The pattern test *)

Section MatcherFacts.

Variable unicodeLower : string -> string.

Lemma eqb_empty_false (s : string) : s <> "" -> String.eqb s "" = false.
Proof. intros H. now apply String.eqb_neq. Qed.

Lemma matches_true_iff (address : string) (cfg : SearchConfig) :
  matches unicodeLower address cfg = true <->
  (prefix cfg <> "" ->
   HasPrefix (checkString unicodeLower (caseSensitive cfg) address)
             (checkString unicodeLower (caseSensitive cfg) (prefix cfg))
   = true) /\
  (postfix cfg <> "" ->
   HasSuffix (checkString unicodeLower (caseSensitive cfg) address)
             (checkString unicodeLower (caseSensitive cfg) (postfix cfg))
   = true).
Proof.
  unfold matches.
  destruct (String.eqb_spec (prefix cfg) "") as [Hp|Hp];
    destruct (String.eqb_spec (postfix cfg) "") as [Hq|Hq];
    cbn [negb andb];
    repeat match goal with
           | |- context [HasPrefix ?a ?b] => destruct (HasPrefix a b)
           | |- context [HasSuffix ?a ?b] => destruct (HasSuffix a b)
           end;
    cbn [negb andb]; split;
    try (intros _; split; intros; congruence);
    try reflexivity; try discriminate;
    intros [H1 H2]; try (now apply H1); try (now apply H2).
Qed.

(** A field test on the folded strings does not depend on whether the
    emptiness guard reads the field or its folded form. *)
Lemma guard_prefix_fold (a f : string) :
  negb (String.eqb f "")
  && negb (HasPrefix a (ToLower unicodeLower f))
  = negb (String.eqb (ToLower unicodeLower f) "")
    && negb (HasPrefix a (ToLower unicodeLower f)).
Proof.
  destruct (String.eqb_spec f "") as [->|Hf]; [reflexivity|].
  destruct (String.eqb_spec (ToLower unicodeLower f) "") as [->|Hl];
    [|reflexivity].
  now rewrite HasPrefix_empty.
Qed.

Lemma guard_suffix_fold (a f : string) :
  negb (String.eqb f "")
  && negb (HasSuffix a (ToLower unicodeLower f))
  = negb (String.eqb (ToLower unicodeLower f) "")
    && negb (HasSuffix a (ToLower unicodeLower f)).
Proof.
  destruct (String.eqb_spec f "") as [->|Hf]; [reflexivity|].
  destruct (String.eqb_spec (ToLower unicodeLower f) "") as [->|Hl];
    [|reflexivity].
  now rewrite HasSuffix_empty.
Qed.

End MatcherFacts.

(** C2: the pattern test answers [true] exactly when the address, folded
    to lower case together with the pattern unless the search is case
    sensitive, starts with a non-empty prefix and ends with a non-empty
    suffix; an empty field asks nothing, and with a prefix that fails
    the answer is [false] whatever the suffix is. *)
Theorem matches_iff_prefix_suffix
  (unicodeLower : string -> string) (address : string) (cfg : SearchConfig) :
  (matches unicodeLower address cfg = true <->
   (prefix cfg <> "" ->
    starts_with (checkString unicodeLower (caseSensitive cfg) address)
                (checkString unicodeLower (caseSensitive cfg) (prefix cfg)))
   /\
   (postfix cfg <> "" ->
    ends_with (checkString unicodeLower (caseSensitive cfg) address)
              (checkString unicodeLower (caseSensitive cfg) (postfix cfg))))
  /\
  (checkString unicodeLower true address = address /\
   checkString unicodeLower false address = ToLower unicodeLower address)
  /\
  (prefix cfg <> "" /\
   ~ starts_with (checkString unicodeLower (caseSensitive cfg) address)
                 (checkString unicodeLower (caseSensitive cfg) (prefix cfg))
   -> forall sfx,
      matches unicodeLower address
              (mkConfig (prefix cfg) sfx (caseSensitive cfg)) = false).
Proof.
  split; [|split; [split; reflexivity|]].
  - rewrite matches_true_iff.
    split; intros [Hp Hq]; split; intros Hne.
    + apply HasPrefix_spec; auto.
    + apply HasSuffix_spec; auto.
    + apply HasPrefix_spec; auto.
    + apply HasSuffix_spec; auto.
  - intros [Hne Hno] sfx. unfold matches; simpl.
    rewrite (eqb_empty_false _ Hne); simpl.
    destruct (HasPrefix _ _) eqn:Hpre; [|reflexivity].
    exfalso. apply Hno. now apply HasPrefix_spec.
Qed.

(** C3: in a case-insensitive search the test gives the same answer on
    the address and pattern as on their lower-cased forms, given that the
    Unicode path of [strings.ToLower] returns strings that [ToLower]
    leaves unchanged. *)
Theorem matches_case_fold
  (unicodeLower : string -> string)
  (Hstable : forall s, isASCII s = false ->
             ToLower unicodeLower (unicodeLower s) = unicodeLower s)
  (address : string) (cfg : SearchConfig) :
  caseSensitive cfg = false ->
  matches unicodeLower address cfg
  = matches unicodeLower (ToLower unicodeLower address)
            (lower_fields unicodeLower cfg).
Proof.
  intros Hcs. unfold matches, lower_fields, checkString; simpl.
  rewrite Hcs.
  rewrite !(ToLower_idem unicodeLower Hstable).
  now rewrite <- guard_prefix_fold, <- guard_suffix_fold.
Qed.

(** The C3 statement at the address and pattern of the case-folding
    scenario, with an identity Unicode path. *)
Lemma matches_case_fold_witness :
  (forall s, isASCII s = false ->
             ToLower (fun u => u) s = s) /\
  caseSensitive (mkConfig "aaa" "" false) = false /\
  matches (fun u => u) "AAAxyz123" (mkConfig "aaa" "" false)
  = matches (fun u => u) (ToLower (fun u => u) "AAAxyz123")
            (lower_fields (fun u => u) (mkConfig "aaa" "" false)).
Proof.
  assert (H : forall s, isASCII s = false -> ToLower (fun u => u) s = s).
  { intros s Hs. unfold ToLower. now rewrite Hs. }
  split; [exact H|]. split; [reflexivity|].
  apply (matches_case_fold (fun u => u) H "AAAxyz123"
                           (mkConfig "aaa" "" false)).
  reflexivity.
Defined.

(** The two matching scenarios of the specification. *)
Example scenario_case_folded :
  matches (fun u => u) "AAAxyz123" (mkConfig "aaa" "" false) = true.
Proof. reflexivity. Qed.

Example scenario_suffix_only :
  matches (fun u => u) "AAAxyz" (mkConfig "" "xyz" true) = true.
Proof. reflexivity. Qed.

Example scenario_case_sensitive_miss :
  matches (fun u => u) "AAAxyz123" (mkConfig "aaa" "" true) = false.
Proof. reflexivity. Qed.

(** ** [privateKeyToJSON] *)

Module JSONFacts.
Import JSON.

Lemma app_assoc_string (a b c : string) : (a ++ b) ++ c = a ++ (b ++ c).
Proof. induction a as [|x a IH]; simpl; [reflexivity | now rewrite IH]. Qed.

Lemma collect_ints (pfx indent : string) (d : nat) (ints : list Z) :
  collect (map (marshalAt pfx indent d) (map VInt ints))
  = inl (map formatInt ints) :> (list string + MarshalError).
Proof.
  induction ints as [|z zs IH]; simpl; [reflexivity|].
  now rewrite IH.
Qed.

Lemma join_restOf (b : Byte.byte) (bs : list Byte.byte) :
  join sep (map formatInt (map intOfByte (b :: bs))) ++ closing
  = formatInt (intOfByte b) ++ restOf bs.
Proof.
  revert b. induction bs as [|b' bs IH]; intros b.
  - reflexivity.
  - change (join sep (map formatInt (map intOfByte (b :: b' :: bs))))
      with (formatInt (intOfByte b)
            ++ sep ++ join sep (map formatInt (map intOfByte (b' :: bs)))).
    rewrite !app_assoc_string, IH. reflexivity.
Qed.

(** The text [privateKeyToJSON] produces. *)
Lemma privateKeyToJSON_text (key : PrivateKey) :
  privateKeyToJSON key
  = inl match key with
        | [] => "[]"
        | b :: bs => "[" ++ newline "" "  " 1
                         ++ formatInt (intOfByte b) ++ restOf bs
        end.
Proof.
  unfold privateKeyToJSON, MarshalIndent.
  destruct key as [|b bs]; [reflexivity|].
  cbn [map marshalAt collect]. rewrite collect_ints.
  do 3 f_equal.
  apply (join_restOf b bs).
Qed.

(** Reading the digits of one byte leaves the reader inside a number
    whose value is that byte. *)
Lemma parse_digits_open (b : Byte.byte) (acc : list Byte.byte) (rest : string) :
  parseFrom POpen acc (formatInt (intOfByte b) ++ rest)
  = parseFrom (PNum (Byte.to_N b)) acc rest.
Proof. destruct b; reflexivity. Qed.

Lemma parse_digits_comma (b : Byte.byte) (acc : list Byte.byte) (rest : string) :
  parseFrom PComma acc (formatInt (intOfByte b) ++ rest)
  = parseFrom (PNum (Byte.to_N b)) acc rest.
Proof. destruct b; reflexivity. Qed.

Lemma parse_rest (bs : list Byte.byte) :
  forall (b : Byte.byte) (acc : list Byte.byte),
    parseFrom (PNum (Byte.to_N b)) acc (restOf bs)
    = Some (rev acc ++ b :: bs)%list.
Proof.
  induction bs as [|b' bs IH]; intros b acc.
  - cbn. rewrite Byte.of_to_N. reflexivity.
  - cbn [restOf].
    change (sep ++ formatInt (intOfByte b') ++ restOf bs)
      with (String "," (String "010" (String " " (String " "
              (formatInt (intOfByte b') ++ restOf bs))))).
    cbn [parseFrom]. cbn.
    rewrite Byte.of_to_N.
    change (parseFrom PComma (b :: acc)
              (formatInt (intOfByte b') ++ restOf bs)
            = Some (rev acc ++ b :: b' :: bs)%list).
    rewrite parse_digits_comma, IH. cbn [rev].
    now rewrite <- app_assoc.
Qed.

End JSONFacts.

(** C8: the JSON text of a private key, read back as an array of
    decimal integers, is the key, byte for byte and in order. *)
Theorem privateKeyToJSON_roundtrip (key : PrivateKey) :
  exists text : string,
    privateKeyToJSON key = inl text /\ JSON.parseBytes text = Some key.
Proof.
  rewrite JSONFacts.privateKeyToJSON_text.
  eexists. split; [reflexivity|].
  destruct key as [|b bs]; [reflexivity|].
  unfold JSON.parseBytes.
  change (JSON.parseFrom JSON.POpen []
            (JSON.formatInt (intOfByte b) ++ JSON.restOf bs)
          = Some (b :: bs)).
  rewrite JSONFacts.parse_digits_open.
  apply (JSONFacts.parse_rest bs b []).
Qed.

(** ** The search *)

Ltac simpl_state :=
  cbn [coord workers resultCh ctxDone wg totalIterations drawn output sent
       set_coord set_workers set_resultCh set_ctxDone set_wg
       set_totalIterations set_drawn set_output set_sent set_worker
       received receivedCount] in *.

Ltac break_step H :=
  repeat match type of H with
         | context [match ?x with _ => _ end] => destruct x eqn:?
         | (let (_, _) := ?x in _) = _ => destruct x eqn:?
         end;
  try discriminate H;
  try (injection H as <-).

Lemma privateKeyToJSON_text_ok (key : PrivateKey) :
  exists text, privateKeyToJSON key = inl text.
Proof.
  rewrite JSONFacts.privateKeyToJSON_text. now eexists.
Qed.

Section SearchFacts.

Variable unicodeLower : string -> string.
Variable base58Encode : list Byte.byte -> string.
Variable keySource : nat -> option (PublicKey * PrivateKey).
Variable NumCPU : Z.
Variable cfg : SearchConfig.

Local Abbreviation step := (step unicodeLower base58Encode keySource NumCPU cfg).
Local Abbreviation exec := (exec unicodeLower base58Encode keySource NumCPU cfg).
Local Abbreviation reachable :=
  (reachable unicodeLower base58Encode keySource NumCPU cfg).
Local Abbreviation worker_step :=
  (worker_step unicodeLower base58Encode keySource cfg).
Local Abbreviation coord_step := (coord_step base58Encode NumCPU cfg).

Lemma exec_reachable (sched : list Action) :
  forall s s', reachable s -> exec sched s = Some s' -> reachable s'.
Proof.
  induction sched as [|a sched IH]; intros s s' Hs He; simpl in He.
  - now injection He as <-.
  - destruct (step a s) as [s1|] eqn:Ha; [|discriminate].
    eapply IH; [|exact He]. eapply reach_step; eauto.
Qed.

Lemma stateAfter_reachable (sched : list Action) :
  reachable (stateAfter unicodeLower base58Encode keySource NumCPU cfg
                        sched).
Proof.
  unfold stateAfter. destruct (exec sched init) as [s|] eqn:He.
  - eapply exec_reachable; [apply reach_init|exact He].
  - apply reach_init.
Qed.

Lemma report_err (r : Result) (n : Z) (lines : list Line)
      (err : option AppError) :
  report base58Encode r n = (lines, err) -> err <> Some ErrNoPattern.
Proof.
  unfold report. destruct (privateKeyToJSON _); intros [= <- <-]; congruence.
Qed.

Lemma lookup_set_worker_eq (i : nat) (pc pc0 : WorkerPC) (s : State) :
  workers s !! i = Some pc0 ->
  workers (set_worker i pc s) !! i = Some pc.
Proof.
  intros H. simpl. apply list_lookup_insert_eq.
  now apply lookup_lt_Some in H.
Qed.

Lemma lookup_set_worker_ne (i j : nat) (pc : WorkerPC) (s : State) :
  i <> j -> workers (set_worker i pc s) !! j = workers s !! j.
Proof. intros H. simpl. now apply list_lookup_insert_ne. Qed.

(** A move of worker [i] that keeps the history keeps every sender
    past its send, provided [i] does not fall back before it. *)
Lemma senders_kept (s : State) (i : nat) (pc0 pc : WorkerPC)
      (h : list (nat * Result)) :
  workers s !! i = Some pc0 ->
  (pastSend pc0 = true -> pastSend pc = true) ->
  (forall j r, In (j, r) h ->
               exists p, workers s !! j = Some p /\ pastSend p = true) ->
  forall j r, In (j, r) h ->
              exists p, <[i:=pc]> (workers s) !! j = Some p
                        /\ pastSend p = true.
Proof.
  intros Hi Hmono Hall j r Hin.
  destruct (Hall j r Hin) as (p & Hp & Hpast).
  destruct (decide (i = j)) as [->|Hne].
  - exists pc. split.
    + apply list_lookup_insert_eq. now apply lookup_lt_Some in Hi.
    + apply Hmono. congruence.
  - exists p. split; [|exact Hpast]. now rewrite list_lookup_insert_ne.
Qed.

Lemma channel_inv_step (a : Action) (s s' : State) :
  channel_inv s -> step a s = Some s' -> channel_inv s'.
Proof.
  intros (Hch & Hcnt & Hrecv) Hstep. unfold channel_inv.
  destruct a as [|i c]; simpl in Hstep.
  - unfold coord_step in Hstep.
    destruct (coord s) as [|k| |r|r|e|e] eqn:Hc; simpl_state.
    + break_step Hstep; simpl_state; rewrite ?Hc in *; simpl_state;
        (split; [exact Hch|split; [lia|intros r [=]]]).
    + break_step Hstep; simpl_state; rewrite ?Hc in *; simpl_state;
        (split; [exact Hch|split; [lia|intros r [=]]]).
    + break_step Hstep; simpl_state.
      destruct (sent s) as [|[i r0] h] eqn:Hs; [discriminate|].
      simpl in Hch. injection Hch as -> ->.
      split; [reflexivity|]. split; [simpl; lia|].
      intros r1 [= <-]. now exists i.
    + break_step Hstep; simpl_state.
      split; [exact Hch|]. split; [exact Hcnt|].
      intros r0 [= <-]. apply Hrecv. unfold received. now rewrite Hc.
    + break_step Hstep; simpl_state.
      pose proof (report_err _ _ _ _ Heqp) as Herr.
      assert (Hone : match o with Some ErrNoPattern => 0 | _ => 1 end = 1).
      { destruct o as [[]|]; congruence. }
      rewrite Hone. split; [exact Hch|]. split; [exact Hcnt|]. intros r0 [=].
    + break_step Hstep; simpl_state.
      split; [exact Hch|]. split; [exact Hcnt|]. intros r0 [=].
    + discriminate.
  - unfold worker_step in Hstep.
    break_step Hstep; simpl_state;
      try (split; [exact Hch|split; [exact Hcnt|exact Hrecv]]).
    split; [|split].
    + rewrite drop_app_le by exact Hcnt. rewrite map_app. now rewrite Hch.
    + rewrite length_app. lia.
    + intros r0 Hr0. destruct (Hrecv r0 Hr0) as [j Hj]. exists j.
      destruct (sent s); [discriminate|exact Hj].
Qed.

Lemma channel_inv_reachable (s : State) : reachable s -> channel_inv s.
Proof.
  induction 1 as [|a s s' _ IH Hstep].
  - unfold channel_inv; simpl. split; [reflexivity|]. split; [lia|].
    intros r [=].
  - eapply channel_inv_step; eauto.
Qed.

Lemma capacity_reachable (s : State) :
  reachable s -> (length (resultCh s) <= resultChCap)%nat.
Proof.
  induction 1 as [|a s s' _ IH Hstep]; [simpl; lia|].
  destruct a as [|i c]; simpl in Hstep.
  - unfold coord_step in Hstep. break_step Hstep; simpl_state; try exact IH.
    simpl in IH. lia.
  - unfold worker_step in Hstep. break_step Hstep; simpl_state; try exact IH.
    rewrite length_app. simpl. apply Nat.ltb_lt in Heqb.
    unfold resultChCap in *. lia.
Qed.

Lemma senders_inv_step (a : Action) (s s' : State) :
  senders_inv s -> step a s = Some s' -> senders_inv s'.
Proof.
  intros (Hnd & Hpast) Hstep. unfold senders_inv.
  destruct a as [|i c]; simpl in Hstep.
  - unfold coord_step in Hstep. break_step Hstep; simpl_state;
      try (split; [exact Hnd|exact Hpast]).
    split; [exact Hnd|]. intros j r Hin.
    destruct (Hpast j r Hin) as (pc & Hpc & Hp). exists pc.
    split; [|exact Hp]. now apply lookup_app_l_Some.
  - unfold worker_step in Hstep.
    destruct (workers s !! i) as [pc0|] eqn:Hi; [|discriminate].
    destruct pc0; break_step Hstep; simpl_state;
      try (split; [exact Hnd|];
           apply (senders_kept s i _ _ _ Hi);
           [simpl; congruence | exact Hpast]).
    (* the send *)
    assert (Hfresh : ~ In i (map fst (sent s))).
    { intros Hin. apply in_map_iff in Hin as ([j r0] & Hj & Hin).
      simpl in Hj. subst j.
      destruct (Hpast i r0 Hin) as (pc & Hpc & Hp).
      rewrite Hi in Hpc. injection Hpc as <-. discriminate Hp. }
    split.
    + rewrite map_app. simpl. apply NoDup_app. split; [exact Hnd|].
      split; [|apply NoDup_singleton].
      intros x Hx Hx'. apply list_elem_of_In in Hx.
      apply list_elem_of_singleton in Hx'. subst x. contradiction.
    + intros j r0 Hin. apply in_app_or in Hin as [Hin|Hin].
      * revert j r0 Hin. apply (senders_kept s i _ _ _ Hi);
          [simpl; congruence | exact Hpast].
      * destruct Hin as [[= <- <-]|[]]. exists WCancel.
        split; [|reflexivity].
        apply list_lookup_insert_eq. now apply lookup_lt_Some in Hi.
Qed.

Lemma senders_inv_reachable (s : State) : reachable s -> senders_inv s.
Proof.
  induction 1 as [|a s s' _ IH Hstep].
  - split; [constructor|intros i r []].
  - eapply senders_inv_step; eauto.
Qed.

(** *** Results carry the encoding of their public key *)

Lemma results_inv_step (a : Action) (s s' : State) :
  results_inv base58Encode s -> step a s = Some s' -> results_inv base58Encode s'.
Proof.
  intros (Hpub & Hsent) Hstep. unfold results_inv.
  destruct a as [|i c]; simpl in Hstep.
  - unfold coord_step in Hstep. break_step Hstep; simpl_state;
      try (split; [exact Hpub|exact Hsent]).
    split; [|exact Hsent]. intros j r Hj.
    apply lookup_app_Some in Hj as [Hj|[_ Hj]]; [now apply (Hpub j)|].
    apply list_lookup_singleton_Some in Hj as [_ Hj]. discriminate Hj.
  - unfold worker_step in Hstep.
    destruct (workers s !! i) as [pc0|] eqn:Hi; [|discriminate].
    assert (Hkeep : forall pc, (forall r, pc <> WPublish r) ->
              forall j r, <[i:=pc]> (workers s) !! j = Some (WPublish r) ->
                          wfResult base58Encode r).
    { intros pc Hpc j r Hj.
      destruct (decide (i = j)) as [->|Hne].
      - rewrite list_lookup_insert_eq in Hj
          by (now apply lookup_lt_Some in Hi).
        injection Hj as ->. now elim (Hpc r).
      - rewrite list_lookup_insert_ne in Hj by exact Hne.
        now apply (Hpub j). }
    destruct pc0; break_step Hstep; simpl_state;
      try (split; [apply Hkeep; congruence | exact Hsent]).
    + (* a key that passes the test *)
      split; [|exact Hsent]. intros j r Hj.
      destruct (decide (i = j)) as [->|Hne].
      * rewrite list_lookup_insert_eq in Hj
          by (now apply lookup_lt_Some in Hi).
        injection Hj as <-. reflexivity.
      * rewrite list_lookup_insert_ne in Hj by exact Hne.
        now apply (Hpub j).
    + (* the send *)
      split; [apply Hkeep; congruence|]. intros j r0 Hin.
      apply in_app_or in Hin as [Hin|[[= <- <-]|[]]];
        [now apply (Hsent j)|now apply (Hpub i)].
Qed.

Lemma results_inv_reachable (s : State) : reachable s -> results_inv base58Encode s.
Proof.
  induction 1 as [|a s s' _ IH Hstep].
  - split; [intros i r [=]|intros i r []].
  - eapply results_inv_step; eauto.
Qed.

Lemma in_drop {A : Type} (x : A) (k : nat) (l : list A) :
  In x (drop k l) -> In x l.
Proof.
  revert k. induction l as [|y l IH]; intros [|k] H; simpl in *; auto.
  right. now apply (IH k).
Qed.

Lemma channel_sent (s : State) (r : Result) :
  reachable s -> In r (resultCh s) -> exists i, In (i, r) (sent s).
Proof.
  intros Hs Hr. destruct (channel_inv_reachable s Hs) as (Hch & _ & _).
  rewrite Hch in Hr. apply in_map_iff in Hr as ([i r0] & Hr0 & Hin).
  simpl in Hr0. subst r0. exists i. eapply in_drop; eauto.
Qed.

Lemma received_sent (s : State) (r : Result) :
  reachable s -> received s = Some r -> exists i, In (i, r) (sent s).
Proof.
  intros Hs Hr. destruct (channel_inv_reachable s Hs) as (_ & _ & Hhead).
  destruct (Hhead r Hr) as [i Hi]. exists i.
  destruct (sent s) as [|x h]; [discriminate|].
  injection Hi as ->. now left.
Qed.

Lemma report_lines (r : Result) (n : Z) :
  exists text,
    report base58Encode r n
    = ([LFound (Address r); LAttempts n;
        LPublicKey (base58Encode (ResPublicKey r));
        LPrivateKey (base58Encode (ResPrivateKey r));
        LPrivateKeyJSON text], None)
    /\ privateKeyToJSON (ResPrivateKey r) = inl text.
Proof.
  unfold report.
  destruct (privateKeyToJSON_text_ok (ResPrivateKey r)) as (text & ->).
  now exists text.
Qed.

Lemma output_inv_reachable (s : State) : reachable s -> output_inv base58Encode s.
Proof.
  induction 1 as [|a s s' Hs IH Hstep].
  - intros l [].
  - unfold output_inv in *.
    destruct a as [|i c]; simpl in Hstep.
    + unfold coord_step in Hstep.
      destruct (coord s) as [|k| |r|r|e|e] eqn:Hc;
        break_step Hstep; simpl_state.
      * intros a t Ha _. apply IH in Ha. discriminate Ha.
      * intros l Hl. apply in_app_or in Hl as [Hl|[<-|[]]]; auto.
      * exact IH.
      * exact IH.
      * split; [|exact IH].
        destruct (channel_sent s r Hs) as [j Hj];
          [rewrite Heql; now left|].
        destruct (results_inv_reachable s Hs) as [_ Hsent].
        now apply (Hsent j).
      * exact IH.
      * destruct IH as [Hwf Hout].
        destruct (report_lines r (totalIterations s)) as (text & Hrep & _).
        rewrite Hrep in Heqp. injection Heqp as <- <-.
        intros a t Ha Ht.
        apply in_app_or in Ha as [Ha|Ha]; [now apply Hout in Ha|].
        apply in_app_or in Ht as [Ht|Ht]; [now apply Hout in Ht|].
        simpl in Ha, Ht.
        repeat (destruct Ha as [Ha|Ha]; try discriminate Ha; try easy).
        repeat (destruct Ht as [Ht|Ht]; try discriminate Ht; try easy).
        congruence.
      * exact IH.
    + unfold worker_step in Hstep.
      break_step Hstep; simpl_state; exact IH.
Qed.

(** C10: in every state of a run, each Result that was sent and the
    Result the coordinator holds has as address the Base58 text of its
    public key, and the public-key line of the report repeats the
    address line. *)
Theorem published_address_is_encoded_key (s : State) :
  reachable s ->
  (forall i r, In (i, r) (sent s) ->
               base58Encode (ResPublicKey r) = Address r) /\
  (forall r, received s = Some r ->
             base58Encode (ResPublicKey r) = Address r) /\
  (forall a t, In (LFound a) (output s) ->
               In (LPublicKey t) (output s) -> t = a).
Proof.
  intros Hs. destruct (results_inv_reachable s Hs) as [_ Hsent].
  split; [exact Hsent|]. split.
  - intros r Hr. destruct (received_sent s r Hs Hr) as [i Hi].
    now apply (Hsent i).
  - pose proof (output_inv_reachable s Hs) as Hout.
    unfold output_inv in Hout.
    destruct (coord s); try exact Hout;
      try (destruct Hout as [_ Hout]);
      intros a t Ha _; apply Hout in Ha; discriminate Ha.
Qed.

(** *** The spawn loop *)

Lemma spawn_inv_reachable (s : State) : reachable s -> spawn_inv NumCPU cfg s.
Proof.
  induction 1 as [|a s s' Hs IH Hstep]; [reflexivity|].
  unfold spawn_inv in *.
  destruct a as [|i c]; simpl in Hstep.
  - unfold coord_step in Hstep.
    destruct (coord s) as [|k| |r|r|e|e] eqn:Hc;
      break_step Hstep; simpl_state; try exact IH.
    + apply andb_prop in Heqb as [Hp Hq].
      apply String.eqb_eq in Hp, Hq. auto.
    + rewrite IH. pose proof (Z.le_max_l 0 NumCPU).
      split; [lia|reflexivity].
    + apply Z.ltb_lt in Heqb. destruct IH as [Hk Hlen].
      pose proof (Z.le_max_r 0 NumCPU).
      split; [lia|]. rewrite length_app, Hlen. cbn [length].
      rewrite Z2Nat.inj_add by lia. reflexivity.
    + apply Z.ltb_ge in Heqb. destruct IH as [Hk Hlen].
      rewrite Hlen.
      destruct (Z.max_spec 0 NumCPU) as [[Hn Hm]|[Hn Hm]];
        rewrite Hm in Hk; lia.
    + pose proof (report_err _ _ _ _ Heqp) as Herr.
      destruct o as [[]|]; [congruence|exact IH|exact IH].
    + destruct e as [[]|]; [contradiction|exact IH|exact IH].
  - unfold worker_step in Hstep.
    destruct (workers s !! i) as [pc0|] eqn:Hi; [|discriminate].
    assert (Hne : workers s <> []).
    { intros Hnil. rewrite Hnil in Hi. discriminate Hi. }
    destruct (coord s) as [|k| |r|r|[[]|]|[[]|]] eqn:Hc;
      break_step Hstep; simpl_state;
      rewrite Hc, ?length_insert;
      solve [exact IH | contradiction | now destruct IH].
Qed.

(** *** The report cannot fail *)

Lemma no_json_error_reachable (s : State) :
  reachable s ->
  forall e, coord s <> CReturn (Some (ErrJSON e))
            /\ coord s <> CExit (Some (ErrJSON e)).
Proof.
  induction 1 as [|a s s' Hs IH Hstep]; intros e0; [split; discriminate|].
  destruct a as [|i c]; simpl in Hstep.
  - unfold coord_step in Hstep.
    destruct (coord s) as [|k| |r|r|e|e] eqn:Hc;
      break_step Hstep; simpl_state; try (split; discriminate).
    + destruct (report_lines r (totalIterations s)) as (text & Hrep & _).
      rewrite Hrep in Heqp. injection Heqp as <- <-. split; discriminate.
    + destruct (IH e0) as [H1 _]. split; [discriminate|]. congruence.
  - unfold worker_step in Hstep.
    break_step Hstep; simpl_state; exact (IH e0).
Qed.

(** *** An empty pattern *)

Lemma empty_pattern_reachable (s : State) :
  prefix cfg = "" -> postfix cfg = "" -> reachable s ->
  s = init \/ s = set_coord (CExit (Some ErrNoPattern)) init.
Proof.
  intros Hp Hq. induction 1 as [|a s s' Hs IH Hstep]; [now left|].
  destruct IH as [->| ->]; destruct a as [|i c]; simpl in Hstep.
  - unfold coord_step in Hstep. simpl in Hstep.
    rewrite Hp, Hq in Hstep. simpl in Hstep. injection Hstep as <-.
    now right.
  - discriminate.
  - discriminate.
  - discriminate.
Qed.

(** C4: with an empty prefix and an empty suffix the first move of the
    coordinator returns the error of line 69, and no state of the run
    has a worker, a generated key or a counted attempt. *)
Theorem empty_pattern_rejected (s : State) :
  prefix cfg = "" -> postfix cfg = "" -> reachable s ->
  step Coord init = Some (set_coord (CExit (Some ErrNoPattern)) init) /\
  (coord s = CValidate \/ coord s = CExit (Some ErrNoPattern)) /\
  workers s = [] /\ drawn s = 0 /\ totalIterations s = 0%Z /\
  sent s = [] /\ output s = [] /\
  (forall i c, step (Work i c) s = None) /\
  (forall a, coord s = CExit (Some ErrNoPattern) -> step a s = None).
Proof.
  intros Hp Hq Hs. split.
  - simpl. unfold coord_step. simpl. now rewrite Hp, Hq.
  - destruct (empty_pattern_reachable s Hp Hq Hs) as [->| ->]; simpl.
    + split; [now left|]. do 5 (split; [reflexivity|]).
      split; [intros i c; reflexivity|]. intros a [=].
    + split; [now right|]. do 5 (split; [reflexivity|]).
      split; [intros i c; reflexivity|]. intros [|i c] _; reflexivity.
Qed.

(** C6: when [GenerateKey] fails the worker goes back to the top of
    its loop; nothing else of the state changes but the entropy that
    was consumed. *)
Theorem keygen_failure_skips_iteration (s : State) (i : nat) (c : SelectCase) :
  workers s !! i = Some WGenerate ->
  keySource (drawn s) = None ->
  exists s',
    step (Work i c) s = Some s' /\
    workers s' !! i = Some WCheck /\
    (forall j, j <> i -> workers s' !! j = workers s !! j) /\
    length (workers s') = length (workers s) /\
    coord s' = coord s /\ resultCh s' = resultCh s /\
    ctxDone s' = ctxDone s /\ wg s' = wg s /\
    totalIterations s' = totalIterations s /\
    output s' = output s /\ sent s' = sent s /\
    drawn s' = S (drawn s).
Proof.
  intros Hi Hk. eexists. split.
  - simpl. unfold worker_step. rewrite Hi, Hk. reflexivity.
  - simpl_state. split.
    + apply list_lookup_insert_eq. now apply lookup_lt_Some in Hi.
    + split; [intros j Hj; now apply list_lookup_insert_ne|].
      split; [apply length_insert|]. repeat split.
Qed.

(** With an entropy source that always fails, every worker stays in its
    loop, nothing is sent or cancelled, and the coordinator never gets
    past its receive. *)
Lemma all_failures_keep_searching (s : State) :
  (forall n, keySource n = None) -> reachable s ->
  (forall i pc, workers s !! i = Some pc ->
                pc = WCheck \/ pc = WCount \/ pc = WGenerate) /\
  sent s = [] /\ resultCh s = [] /\ ctxDone s = false /\
  receivedCount (coord s) = 0.
Proof.
  intros Hnone. induction 1 as [|a s s' Hs IH Hstep].
  - repeat split. intros i pc [=].
  - destruct IH as (Hw & Hsent & Hch & Hdone & Hcnt).
    destruct a as [|i c]; simpl in Hstep.
    + unfold coord_step in Hstep.
      destruct (coord s) as [|k| |r|r|[[]|]|[[]|]] eqn:Hc;
        try discriminate Hcnt;
        break_step Hstep; simpl_state; try congruence;
        try (repeat split; assumption).
      * repeat split; try assumption. intros j pc Hj.
        apply lookup_app_Some in Hj as [Hj|[_ Hj]]; [now apply (Hw j)|].
        apply list_lookup_singleton_Some in Hj as [_ <-]. now left.
      * pose proof (spawn_inv_reachable s Hs) as Hsp.
        unfold spawn_inv in Hsp. now rewrite Hc in Hsp.
    + unfold worker_step in Hstep.
      destruct (workers s !! i) as [pc0|] eqn:Hi; [|discriminate].
      assert (Hset : forall pc,
                pc = WCheck \/ pc = WCount \/ pc = WGenerate ->
                forall j p, <[i:=pc]> (workers s) !! j = Some p ->
                            p = WCheck \/ p = WCount \/ p = WGenerate).
      { intros pc Hpc j p Hj. destruct (decide (i = j)) as [->|Hne].
        - rewrite list_lookup_insert_eq in Hj
            by (now apply lookup_lt_Some in Hi).
          now injection Hj as <-.
        - rewrite list_lookup_insert_ne in Hj by exact Hne.
          now apply (Hw j). }
      destruct (Hw i pc0 Hi) as [->|[->| ->]];
        break_step Hstep; simpl_state;
        try congruence;
        try (rewrite Hnone in *; discriminate);
        (split; [apply Hset; auto|repeat split; assumption]).
Qed.





(** C9: [privateKeyToJSON] returns a text for every key, the report of
    a Result prints its five lines without an error, and no state of a
    run carries the error of line 150. *)
Theorem privateKeyToJSON_never_fails :
  (forall key : PrivateKey, exists text, privateKeyToJSON key = inl text) /\
  (forall (r : Result) (n : Z),
      exists text,
        privateKeyToJSON (ResPrivateKey r) = inl text /\
        report base58Encode r n
        = ([LFound (Address r); LAttempts n;
            LPublicKey (base58Encode (ResPublicKey r));
            LPrivateKey (base58Encode (ResPrivateKey r));
            LPrivateKeyJSON text], None)) /\
  (forall s, reachable s ->
             forall e, coord s <> CReturn (Some (ErrJSON e))
                       /\ coord s <> CExit (Some (ErrJSON e))).
Proof.
  split; [|split].
  - intros key.
    destruct (privateKeyToJSON_text_ok key) as [text Ht]. now exists text.
  - intros r n. destruct (report_lines r n) as (text & Hrep & Ht).
    now exists text.
  - exact no_json_error_reachable.
Qed.

(** *** The result channel *)

Lemma receivedCount_le_1 (c : CoordPC) : receivedCount c <= 1.
Proof. destruct c as [| | | | |[[]|]|[[]|]]; simpl; lia. Qed.

Lemma sent_bound (s : State) :
  reachable s -> length (sent s) <= resultChCap + receivedCount (coord s).
Proof.
  intros Hs. destruct (channel_inv_reachable s Hs) as (Hch & Hcnt & _).
  pose proof (capacity_reachable s Hs) as Hcap.
  rewrite Hch, length_map, length_drop in Hcap. lia.
Qed.

(** C1, as the code has it: the coordinator takes one Result, the
    first that was sent, and each worker sends at most once.  At its
    select a worker waits while the slot is full and nothing is
    cancelled, and leaves without a send and without [cancel()] by the
    cancellation case.  Its send can be taken exactly when the slot is
    free, whether or not cancellation is signalled, and the
    cancellation case exactly when cancellation is signalled; so a
    second send can follow the coordinator's receive, and the history
    holds at most two Results. *)
Theorem single_receive_protocol (s : State) :
  reachable s ->
  (forall r, received s = Some r -> exists i, head (sent s) = Some (i, r)) /\
  receivedCount (coord s) <= 1 /\
  resultCh s = map snd (drop (receivedCount (coord s)) (sent s)) /\
  NoDup (map fst (sent s)) /\
  length (sent s) <= 1 + receivedCount (coord s) /\
  length (sent s) <= 2 /\
  (forall i r, workers s !! i = Some (WPublish r) ->
     (length (resultCh s) = 1 -> ctxDone s = false ->
      forall c, step (Work i c) s = None) /\
     (forall s', step (Work i CaseDone) s = Some s' ->
                 ctxDone s = true /\ workers s' !! i = Some WExit /\
                 sent s' = sent s /\ resultCh s' = resultCh s /\
                 ctxDone s' = ctxDone s) /\
     (forall s', step (Work i CaseSend) s = Some s' ->
                 resultCh s = [] /\ workers s' !! i = Some WCancel /\
                 resultCh s' = [r] /\
                 sent s' = (sent s ++ [(i, r)])%list) /\
     ((exists s', step (Work i CaseSend) s = Some s') <-> resultCh s = []) /\
     ((exists s', step (Work i CaseDone) s = Some s') <-> ctxDone s = true)).
Proof.
  intros Hs.
  destruct (channel_inv_reachable s Hs) as (Hch & Hcnt & Hhead).
  destruct (senders_inv_reachable s Hs) as (Hnd & _).
  pose proof (sent_bound s Hs) as Hb.
  pose proof (receivedCount_le_1 (coord s)) as H1.
  unfold resultChCap in Hb.
  split; [exact Hhead|]. split; [exact H1|]. split; [exact Hch|].
  split; [exact Hnd|]. split; [exact Hb|]. split; [lia|].
  intros i r Hi. split; [|split; [|split; [|split]]].
  - intros Hfull Hnc c. simpl. unfold worker_step.
    rewrite Hi, Hfull, Hnc. now destruct c.
  - intros s' Hstep. simpl in Hstep. unfold worker_step in Hstep.
    rewrite Hi in Hstep. destruct (ctxDone s) eqn:Hd; [|discriminate].
    injection Hstep as <-. simpl_state. split; [reflexivity|].
    split; [|auto].
    apply list_lookup_insert_eq. now apply lookup_lt_Some in Hi.
  - intros s' Hstep. simpl in Hstep. unfold worker_step in Hstep.
    rewrite Hi in Hstep.
    destruct (length (resultCh s) <? resultChCap)%nat eqn:Hlen;
      [|discriminate].
    injection Hstep as <-. simpl_state.
    apply Nat.ltb_lt in Hlen. unfold resultChCap in Hlen.
    assert (Hnil : resultCh s = []).
    { destruct (resultCh s); [reflexivity|simpl in Hlen; lia]. }
    rewrite Hnil. split; [reflexivity|]. split; [|auto].
    apply list_lookup_insert_eq. now apply lookup_lt_Some in Hi.
  - (* the send can be taken exactly when the slot is free *)
    simpl. unfold worker_step. rewrite Hi. split.
    + intros [s' Hstep].
      destruct (length (resultCh s) <? resultChCap)%nat eqn:Hlen;
        [|discriminate].
      apply Nat.ltb_lt in Hlen. unfold resultChCap in Hlen.
      destruct (resultCh s); [reflexivity|simpl in Hlen; lia].
    + intros ->. eexists. reflexivity.
  - (* the cancellation case exactly when cancellation is signalled *)
    simpl. unfold worker_step. rewrite Hi. split.
    + intros [s' Hstep]. now destruct (ctxDone s).
    + intros ->. eexists. reflexivity.
Qed.

End SearchFacts.

(** ** The prefix scenario: one worker, three keys *)

Section Scenario.

Variable unicodeLower : string -> string.
Variable base58Encode : list Byte.byte -> string.
Variable keySource : nat -> option (PublicKey * PrivateKey).
Variables pk1 pk2 pk3 : PublicKey.
Variables sk1 sk2 sk3 : PrivateKey.

Hypothesis key0 : keySource 0 = Some (pk1, sk1).
Hypothesis key1 : keySource 1 = Some (pk2, sk2).
Hypothesis key2 : keySource 2 = Some (pk3, sk3).
Hypothesis addr1 : base58Encode pk1 = "xyz".
Hypothesis addr2 : base58Encode pk2 = "bbb".
Hypothesis addr3 : base58Encode pk3 = "AAAxyz123".

Local Abbreviation step :=
  (step unicodeLower base58Encode keySource 1 Demo.cfgAAA).
Local Abbreviation exec :=
  (exec unicodeLower base58Encode keySource 1 Demo.cfgAAA).
Local Abbreviation reachable :=
  (reachable unicodeLower base58Encode keySource 1 Demo.cfgAAA).
Local Abbreviation R3 := (mkResult "AAAxyz123" pk3 sk3).

Lemma wrapInt64_small (z : Z) :
  (- 2 ^ 63 <= z < 2 ^ 63)%Z -> wrapInt64 z = z.
Proof. intros H. unfold wrapInt64. rewrite Z.mod_small; lia. Qed.

Lemma miss_xyz : matches unicodeLower "xyz" Demo.cfgAAA = false.
Proof. reflexivity. Qed.

Lemma miss_bbb : matches unicodeLower "bbb" Demo.cfgAAA = false.
Proof. reflexivity. Qed.

Lemma hit_AAA : matches unicodeLower "AAAxyz123" Demo.cfgAAA = true.
Proof. reflexivity. Qed.

Lemma scen_coord_step (s s' : State) :
  reachable s -> scen_inv pk3 sk3 base58Encode s ->
  step Coord s = Some s' -> scen_inv pk3 sk3 base58Encode s'.
Proof.
  intros Hs [Hco Hsh] Hstep.
  pose proof (channel_inv_reachable _ _ _ _ _ s Hs) as (Hch & Hcnt & Hhd).
  simpl in Hstep. unfold coord_step in Hstep.
  unfold scen_inv, coord_ok, shared_ok in *.
  destruct (coord s) as [|k| |r|r|e|e] eqn:Hc; simpl_state.
  - (* line 68: the pattern is not empty *)
    simpl in Hstep. injection Hstep as <-. simpl_state.
    destruct Hco as [Hw Hout]. rewrite Hw in *. rewrite Hout.
    split; [|exact Hsh]. split; [now left|reflexivity].
  - destruct Hco as [[[-> Hw]|[-> Hlen]] Hout].
    + (* the one turn of the spawn loop *)
      simpl in Hstep. injection Hstep as <-. simpl_state.
      rewrite Hw in *. destruct Hsh as (Hd & Ht & Hse & Hdn & Hwg).
      split; [split; [now right|exact Hout]|].
      simpl. unfold worker_ok. simpl_state.
      rewrite Hd, Ht, Hse, Hdn, Hwg. repeat split. lia.
    + (* the loop ends *)
      simpl in Hstep. injection Hstep as <-. simpl_state.
      split; [split; [exact Hlen|exact Hout]|exact Hsh].
  - (* line 139 *)
    destruct (resultCh s) as [|r rest] eqn:Hrc; [discriminate|].
    injection Hstep as <-. simpl_state.
    destruct Hco as [Hlen Hout].
    split; [|exact Hsh]. split; [|split; [exact Hlen|exact Hout]].
    destruct (workers s) as [|w [|w2 ws]]; try discriminate Hlen.
    destruct Hsh as (_ & Hse & _). rewrite Hse in Hch. simpl in Hch.
    destruct (pastSend w); simpl in Hch; [|discriminate].
    now injection Hch as -> _.
  - (* line 140 *)
    destruct (wg s =? 0)%Z eqn:Hwg; [|discriminate].
    injection Hstep as <-. simpl_state. apply Z.eqb_eq in Hwg.
    destruct Hco as (Hr & Hlen & Hout).
    split; [|exact Hsh]. split; [exact Hr|]. split; [|exact Hout].
    destruct (workers s) as [|w [|w2 ws]]; try discriminate Hlen.
    destruct Hsh as (_ & _ & _ & Hw). rewrite Hwg in Hw.
    destruct w; try discriminate Hw. reflexivity.
  - (* lines 141-152 *)
    destruct Hco as (-> & Hw & Hout). rewrite Hw in *.
    pose proof Hsh as ((_ & Ht) & _). rewrite Ht in Hstep.
    unfold report in Hstep. simpl in Hstep.
    destruct (privateKeyToJSON_text_ok sk3) as [text Htext].
    rewrite Htext in Hstep. injection Hstep as <-. simpl_state.
    rewrite Hw, Hout.
    split; [|exact Hsh]. split; [reflexivity|]. split; [reflexivity|].
    exists text. split; [exact Htext|]. reflexivity.
  - (* the deferred cancel() *)
    injection Hstep as <-. simpl_state.
    destruct Hco as (He & Hw & Hout). rewrite Hw in *.
    split; [auto|]. unfold worker_ok in *. simpl_state. tauto.
  - discriminate.
Qed.

Lemma scen_worker_step (s s' : State) (i : nat) (c : SelectCase) :
  scen_inv pk3 sk3 base58Encode s ->
  step (Work i c) s = Some s' -> scen_inv pk3 sk3 base58Encode s'.
Proof.
  intros [Hco Hsh] Hstep. simpl in Hstep. unfold worker_step in Hstep.
  unfold scen_inv, coord_ok, shared_ok in *.
  destruct (workers s) as [|w [|w2 ws]] eqn:Hws;
    [discriminate| |contradiction].
  destruct i as [|i]; [simpl in Hstep|discriminate].
  (* the coordinator is not yet past the wait, or the worker is done *)
  assert (Hco' : forall w', w <> WDone ->
    match coord s with
    | CValidate => [w'] = [] /\ output s = []
    | CSpawn i =>
        ((i = 0%Z /\ [w'] = []) \/ (i = 1%Z /\ length [w'] = 1))
        /\ output s = [LStarted]
    | CReceive => length [w'] = 1 /\ output s = [LStarted]
    | CWait r =>
        r = thirdResult pk3 sk3 /\ length [w'] = 1
        /\ output s = [LStarted]
    | CReport r =>
        r = thirdResult pk3 sk3 /\ [w'] = [WDone]
        /\ output s = [LStarted]
    | CReturn e | CExit e =>
        e = None /\ [w'] = [WDone] /\
        exists text, privateKeyToJSON sk3 = inl text
                     /\ output s = fullReport pk3 sk3 base58Encode text
    end).
  { intros w' Hnd. destruct (coord s) as [|k| |r|r|e|e].
    - destruct Hco as [[=] _].
    - destruct Hco as [[[_ [=]]|[Hk _]] Hout]. split; [now right|exact Hout].
    - destruct Hco as [_ Hout]. split; [reflexivity|exact Hout].
    - destruct Hco as (Hr & _ & Hout). split; [exact Hr|].
      split; [reflexivity|exact Hout].
    - destruct Hco as (_ & [= Hw] & _). contradiction.
    - destruct Hco as (_ & [= Hw] & _). contradiction.
    - destruct Hco as (_ & [= Hw] & _). contradiction. }
  unfold worker_ok in Hsh.
  destruct w; simpl in Hsh;
    destruct Hsh as (Hcount & Hse & Hdn & Hwg).
  - (* line 92 *)
    rewrite Hdn in Hstep. injection Hstep as <-. simpl_state. rewrite Hws.
    cbn [insert list_insert].
    split; [apply Hco'; discriminate|]. unfold worker_ok. simpl. auto.
  - (* line 97 *)
    injection Hstep as <-. simpl_state. rewrite Hws.
    cbn [insert list_insert].
    split; [apply Hco'; discriminate|]. unfold worker_ok. simpl_state.
    destruct Hcount as [Hd Ht]. rewrite Ht.
    rewrite wrapInt64_small by lia. simpl. auto.
  - (* lines 98-120 *)
    destruct Hcount as [Hd Ht].
    destruct (drawn s) as [|[|[|n]]] eqn:Hdr; [| | |lia].
    + rewrite key0, addr1, miss_xyz in Hstep. injection Hstep as <-.
      simpl_state. rewrite Hws. cbn [insert list_insert]. split; [apply Hco'; discriminate|].
      unfold worker_ok. simpl_state. simpl. repeat split; auto; lia.
    + rewrite key1, addr2, miss_bbb in Hstep. injection Hstep as <-.
      simpl_state. rewrite Hws. cbn [insert list_insert]. split; [apply Hco'; discriminate|].
      unfold worker_ok. simpl_state. simpl. repeat split; auto; lia.
    + rewrite key2, addr3, hit_AAA in Hstep. injection Hstep as <-.
      simpl_state. rewrite Hws. cbn [insert list_insert]. split; [apply Hco'; discriminate|].
      unfold worker_ok. simpl_state. simpl. repeat split; auto; lia.
  - (* line 123 *)
    destruct Hcount as (-> & Hd & Ht). destruct c.
    + destruct (length (resultCh s) <? resultChCap)%nat; [|discriminate].
      injection Hstep as <-. simpl_state. rewrite Hws.
    cbn [insert list_insert].
      split; [apply Hco'; discriminate|]. unfold worker_ok. simpl_state.
      rewrite Hse. simpl. auto.
    + rewrite Hdn in Hstep. discriminate.
  - (* line 129 *)
    injection Hstep as <-. simpl_state. rewrite Hws.
    cbn [insert list_insert].
    split; [apply Hco'; discriminate|]. unfold worker_ok. simpl. auto.
  - (* the deferred wg.Done() *)
    injection Hstep as <-. simpl_state. rewrite Hws.
    cbn [insert list_insert].
    split; [apply Hco'; discriminate|]. unfold worker_ok. simpl_state.
    rewrite Hwg. simpl. auto.
  - discriminate.
Qed.

Lemma scen_reachable (s : State) :
  reachable s -> scen_inv pk3 sk3 base58Encode s.
Proof.
  induction 1 as [|a s s' Hs IH Hstep].
  - split; [split; reflexivity|]. unfold shared_ok. simpl. repeat split.
  - destruct a as [|i c].
    + eapply scen_coord_step; eauto.
    + eapply scen_worker_step; eauto.
Qed.

Lemma exec_cons (a : Action) (sched : list Action) (s s1 : State) :
  step a s = Some s1 -> exec (a :: sched) s = exec sched s1.
Proof. intros H. simpl. now rewrite H. Qed.

(** The run that lets the worker finish before the coordinator looks
    at the channel. *)
Lemma solo_run (text : string) :
  privateKeyToJSON sk3 = inl text ->
  exec Demo.soloSchedule init
  = Some (mkState (CExit None) [WDone] [] true 0 3 3
            (fullReport pk3 sk3 base58Encode text)
            [(0, thirdResult pk3 sk3)]).
Proof.
  intros Htext. unfold Demo.soloSchedule.
  pose (R := thirdResult pk3 sk3).
  pose (st := fun c w ch dn g t d h =>
                mkState c [w] ch dn g t d [LStarted] h).
  (* validation and the spawn loop *)
  rewrite (exec_cons _ _ _ (mkState (CSpawn 0) [] [] false 0 0 0
                                    [LStarted] [])) by reflexivity.
  rewrite (exec_cons _ _ _ (st (CSpawn 1) WCheck [] false 1%Z 0%Z 0 []))
    by reflexivity.
  rewrite (exec_cons _ _ _ (st CReceive WCheck [] false 1%Z 0%Z 0 []))
    by reflexivity.
  (* first key *)
  rewrite (exec_cons _ _ _ (st CReceive WCount [] false 1%Z 0%Z 0 []))
    by reflexivity.
  rewrite (exec_cons _ _ _ (st CReceive WGenerate [] false 1%Z 1%Z 0 []))
    by reflexivity.
  rewrite (exec_cons _ _ _ (st CReceive WCheck [] false 1%Z 1%Z 1 []))
    by (simpl; unfold worker_step; simpl;
        rewrite key0, addr1, miss_xyz; reflexivity).
  (* second key *)
  rewrite (exec_cons _ _ _ (st CReceive WCount [] false 1%Z 1%Z 1 []))
    by reflexivity.
  rewrite (exec_cons _ _ _ (st CReceive WGenerate [] false 1%Z 2%Z 1 []))
    by reflexivity.
  rewrite (exec_cons _ _ _ (st CReceive WCheck [] false 1%Z 2%Z 2 []))
    by (simpl; unfold worker_step; simpl;
        rewrite key1, addr2, miss_bbb; reflexivity).
  (* third key *)
  rewrite (exec_cons _ _ _ (st CReceive WCount [] false 1%Z 2%Z 2 []))
    by reflexivity.
  rewrite (exec_cons _ _ _ (st CReceive WGenerate [] false 1%Z 3%Z 2 []))
    by reflexivity.
  rewrite (exec_cons _ _ _ (st CReceive (WPublish R) [] false 1%Z 3%Z 3 []))
    by (simpl; unfold worker_step; simpl;
        rewrite key2, addr3, hit_AAA; reflexivity).
  (* send, cancel(), wg.Done() *)
  rewrite (exec_cons _ _ _ (st CReceive WCancel [R] false 1%Z 3%Z 3 [(0, R)]))
    by reflexivity.
  rewrite (exec_cons _ _ _ (st CReceive WExit [R] true 1%Z 3%Z 3 [(0, R)]))
    by reflexivity.
  rewrite (exec_cons _ _ _ (st CReceive WDone [R] true 0%Z 3%Z 3 [(0, R)]))
    by reflexivity.
  (* receive, wait, report, the deferred cancel() *)
  rewrite (exec_cons _ _ _ (st (CWait R) WDone [] true 0%Z 3%Z 3 [(0, R)]))
    by reflexivity.
  rewrite (exec_cons _ _ _ (st (CReport R) WDone [] true 0%Z 3%Z 3 [(0, R)]))
    by reflexivity.
  rewrite (exec_cons _ _ _
             (mkState (CReturn None) [WDone] [] true 0 3 3
                      (fullReport pk3 sk3 base58Encode text) [(0, R)]))
    by (simpl; unfold coord_step, report; simpl;
        rewrite Htext; reflexivity).
  rewrite (exec_cons _ _ _
             (mkState (CExit None) [WDone] [] true 0 3 3
                      (fullReport pk3 sk3 base58Encode text) [(0, R)]))
    by reflexivity.
  reflexivity.
Qed.

Lemma shared_cases (s : State) :
  shared_ok pk3 sk3 s ->
  (workers s = [] /\ drawn s = 0 /\ totalIterations s = 0%Z /\ sent s = []
   /\ ctxDone s = false /\ wg s = 0%Z)
  \/ exists w, workers s = [w] /\ worker_ok pk3 sk3 s w.
Proof.
  unfold shared_ok. destruct (workers s) as [|w [|w2 ws]]; intros H.
  - now left.
  - right. now exists w.
  - contradiction.
Qed.

Lemma lookup_one (w pc : WorkerPC) (i : nat) :
  [w] !! i = Some pc -> i = 0 /\ pc = w.
Proof.
  intros H. apply list_lookup_singleton_Some in H as [-> ->]. now split.
Qed.

(** While the coordinator has not returned, some goroutine can move. *)
Lemma scen_progress (s : State) :
  reachable s -> (forall e, coord s <> CExit e) ->
  exists a s', step a s = Some s'.
Proof.
  intros Hs Hne.
  destruct (scen_reachable s Hs) as [Hco Hsh].
  pose proof (channel_inv_reachable _ _ _ _ _ s Hs) as (Hch & Hcnt & _).
  unfold coord_ok in Hco.
  assert (Hw : forall w, workers s = [w] -> w <> WDone ->
               (forall r, w = WPublish r -> resultCh s = []) ->
               exists a s', step a s = Some s').
  { intros w Hws Hnd Hpub. exists (Work 0 CaseSend).
    simpl. unfold worker_step. rewrite Hws. simpl.
    destruct w; try (eexists; reflexivity).
    - destruct (ctxDone s); eexists; reflexivity.
    - destruct (keySource (drawn s)) as [[pk sk]|];
        [destruct (matches _ _ _)|]; eexists; reflexivity.
    - rewrite (Hpub r eq_refl). eexists; reflexivity.
    - contradiction. }
  destruct (coord s) as [|k| |r|r|e|e] eqn:Hc; simpl_state.
  - exists Coord. simpl. unfold coord_step. rewrite Hc.
    destruct (_ && _); eexists; reflexivity.
  - exists Coord. simpl. unfold coord_step. rewrite Hc.
    destruct (k <? 1)%Z; eexists; reflexivity.
  - destruct (resultCh s) as [|r rest] eqn:Hrc.
    + destruct Hco as [Hlen _].
      destruct (shared_cases s Hsh) as [[Hnil _]|(w & Hws & Hok)];
        [rewrite Hnil in Hlen; discriminate|].
      apply (Hw w Hws); [|intros r _; reflexivity].
      intros ->. destruct Hok as (_ & Hse & _). simpl in Hse.
      rewrite Hse in Hch. discriminate Hch.
    + exists Coord. simpl. unfold coord_step. rewrite Hc, Hrc.
      eexists; reflexivity.
  - destruct Hco as (_ & Hlen & _).
    destruct (shared_cases s Hsh) as [[Hnil _]|(w & Hws & Hok)];
      [rewrite Hnil in Hlen; discriminate|].
    assert (w = WDone \/ w <> WDone) as [->|Hnd]
      by (destruct w; (now left) || (right; discriminate)).
    + exists Coord. simpl. unfold coord_step. rewrite Hc.
      destruct Hok as (_ & _ & _ & Hwg). rewrite Hwg. simpl.
      eexists; reflexivity.
    + apply (Hw w Hws Hnd). intros r0 ->.
      destruct Hok as (_ & Hse & _). simpl in Hse.
      rewrite Hse in Hcnt. simpl in Hcnt. lia.
  - exists Coord. simpl. unfold coord_step. rewrite Hc.
    destruct (report _ _ _); eexists; reflexivity.
  - exists Coord. simpl. unfold coord_step. rewrite Hc.
    eexists; reflexivity.
  - now elim (Hne e).
Qed.

(** C5: with prefix [AAA], a case-sensitive test, one worker and keys
    whose addresses are [xyz], [bbb] and [AAAxyz123]: nothing is sent
    for the first two keys, the one Result ever sent or received is
    that of the third key, the counter is one ahead of the keys drawn
    while a key is generated and stands at 3 from the third test on,
    the report of every finished run gives that address and 3
    attempts, a run that has not returned can always move, and the
    run of [soloSchedule] returns with that report. *)
Theorem prefix_scenario_third_key (s : State) :
  reachable s ->
  (drawn s < 3 ->
   sent s = [] /\ forall i r, workers s !! i <> Some (WPublish r)) /\
  (forall i r, In (i, r) (sent s) ->
               i = 0 /\ r = mkResult "AAAxyz123" pk3 sk3) /\
  (forall r, received s = Some r -> r = mkResult "AAAxyz123" pk3 sk3) /\
  (forall i, workers s !! i = Some WGenerate ->
             totalIterations s = (Z.of_nat (drawn s) + 1)%Z) /\
  (forall i r, workers s !! i = Some (WPublish r) ->
               r = mkResult "AAAxyz123" pk3 sk3 /\ drawn s = 3
               /\ totalIterations s = 3%Z) /\
  (sent s <> [] -> totalIterations s = 3%Z) /\
  (forall n, In (LAttempts n) (output s) -> n = 3%Z) /\
  (forall e, coord s = CExit e ->
             e = None /\ totalIterations s = 3%Z /\
             exists text,
               privateKeyToJSON sk3 = inl text /\
               output s = [ LStarted; LFound "AAAxyz123"; LAttempts 3;
                            LPublicKey "AAAxyz123";
                            LPrivateKey (base58Encode sk3);
                            LPrivateKeyJSON text ]) /\
  ((forall e, coord s <> CExit e) -> exists a s', step a s = Some s') /\
  (exists text final,
      exec Demo.soloSchedule init = Some final /\
      coord final = CExit None /\ totalIterations final = 3%Z /\
      sent final = [(0, mkResult "AAAxyz123" pk3 sk3)] /\
      output final = [ LStarted; LFound "AAAxyz123"; LAttempts 3;
                       LPublicKey "AAAxyz123";
                       LPrivateKey (base58Encode sk3);
                       LPrivateKeyJSON text ]).
Proof.
  intros Hs. destruct (scen_reachable s Hs) as [Hco Hsh].
  unfold coord_ok in Hco.
  destruct (shared_cases s Hsh)
    as [(Hws & Hd & Ht & Hse & Hdn & Hwg)|(w & Hws & Hok)].
  - (* no worker yet *)
    rewrite Hws in *. rewrite Hse.
    split; [intros _; split; [reflexivity|intros i r [=]]|].
    split; [intros i r []|].
    split.
    { intros r Hr. unfold received in Hr.
      destruct (coord s); try discriminate Hr;
        destruct Hco as (_ & [=] & _). }
    split; [intros i [=]|]. split; [intros i r [=]|].
    split; [congruence|].
    split.
    { intros n Hn. destruct (coord s);
        try (destruct Hco as (_ & [=] & _); fail);
        destruct Hco as [_ Hout]; rewrite Hout in Hn;
        simpl in Hn; intuition discriminate. }
    split.
    { intros e He. rewrite He in Hco. destruct Hco as (_ & [=] & _). }
    split; [now apply scen_progress|].
    destruct (privateKeyToJSON_text_ok sk3) as [text Htext].
    exists text. eexists. split; [apply (solo_run text Htext)|].
    unfold fullReport. rewrite addr3. now repeat split.
  - (* the worker runs *)
    rewrite Hws. destruct Hok as (Hcount & Hse & Hdn & Hwg).
    assert (Htot : pastSend w = true -> totalIterations s = 3%Z).
    { destruct w; simpl; try discriminate; intros _; tauto. }
    split.
    { intros Hd. destruct w; simpl in *;
        try (destruct Hcount as (? & ? & ?); lia);
        try (destruct Hcount as (? & ?); lia);
        (split; [exact Hse|]); intros i r Hi;
        apply lookup_one in Hi as [_ [=]]. }
    split.
    { intros i r Hin. rewrite Hse in Hin.
      destruct (pastSend w); [|contradiction].
      destruct Hin as [[= <- <-]|[]]. now split. }
    split.
    { intros r Hr. unfold received in Hr.
      destruct (coord s); try discriminate Hr;
        injection Hr as <-; now destruct Hco as (-> & _). }
    split.
    { intros i Hi. apply lookup_one in Hi as [_ <-]. tauto. }
    split.
    { intros i r Hi. apply lookup_one in Hi as [_ <-]. simpl in Hcount.
      destruct Hcount as (-> & ? & ?). now repeat split. }
    split.
    { intros Hne. apply Htot. rewrite Hse in Hne.
      destruct (pastSend w); [reflexivity|now elim Hne]. }
    split.
    { intros n Hn. destruct (coord s) as [|k| |r|r|e|e];
        try (destruct Hco as [_ Hout]; rewrite Hout in Hn;
             simpl in Hn; intuition discriminate);
        try (destruct Hco as (_ & _ & Hout); rewrite Hout in Hn;
             simpl in Hn; intuition discriminate);
        destruct Hco as (_ & _ & text & _ & Hout); rewrite Hout in Hn;
        simpl in Hn; intuition (try discriminate); congruence. }
    split.
    { intros e He. rewrite He in Hco.
      destruct Hco as (-> & Hw & text & Htext & Hout).
      split; [reflexivity|]. split.
      - apply Htot. rewrite Hws in Hw. now injection Hw as ->.
      - exists text. split; [exact Htext|]. rewrite Hout.
        unfold fullReport. now rewrite addr3. }
    split; [now apply scen_progress|].
    destruct (privateKeyToJSON_text_ok sk3) as [text Htext].
    exists text. eexists. split; [apply (solo_run text Htext)|].
    unfold fullReport. rewrite addr3. now repeat split.
Qed.

End Scenario.

(** ** Concrete runs *)

Section RaceRun.

Local Abbreviation unicodeLower := Demo.noUnicode.
Local Abbreviation base58Encode := Base58.Encode.
Local Abbreviation keySource := Demo.zeroKeys.
Local Abbreviation NumCPU := 2%Z.
Local Abbreviation cfg := Demo.cfgOne.
Local Abbreviation step :=
  (step unicodeLower base58Encode keySource NumCPU cfg).
Local Abbreviation exec :=
  (exec unicodeLower base58Encode keySource NumCPU cfg).
Local Abbreviation reachable :=
  (reachable unicodeLower base58Encode keySource NumCPU cfg).
Local Abbreviation s :=
  (stateAfter unicodeLower base58Encode keySource NumCPU cfg
              Demo.raceScheduleOn).

(** C1 as stated fails.  Two workers hold a matching key; worker 0
    sends, the coordinator receives, worker 0 calls [cancel()].  Worker
    1 stands at its select with cancellation signalled, and its send
    proceeds all the same: a second Result enters the channel, and
    worker 1 goes on to [cancel()]. *)
Lemma second_send_after_cancel :
  exists (before after : State) (r : Result),
    exec Demo.raceSchedule init = Some before /\
    ctxDone before = true /\
    receivedCount (coord before) = 1 /\
    length (sent before) = 1 /\
    workers before !! 1 = Some (WPublish r) /\
    step (Work 1 CaseSend) before = Some after /\
    workers after !! 1 = Some WCancel /\
    resultCh after = [r] /\
    length (sent after) = 2.
Proof.
  do 3 eexists.
  split; [vm_compute; reflexivity|].
  split; [reflexivity|]. split; [reflexivity|]. split; [reflexivity|].
  split; [reflexivity|].
  split; [vm_compute; reflexivity|].
  split; [reflexivity|]. split; reflexivity.
Qed.

(** The C1 theorem at the end of that race. *)
Lemma single_receive_protocol_witness :
  reachable s /\
  ((forall r, received s = Some r -> exists i, head (sent s) = Some (i, r)) /\
   receivedCount (coord s) <= 1 /\
   resultCh s = map snd (drop (receivedCount (coord s)) (sent s)) /\
   NoDup (map fst (sent s)) /\
   length (sent s) <= 1 + receivedCount (coord s) /\
   length (sent s) <= 2 /\
   (forall i r, workers s !! i = Some (WPublish r) ->
      (length (resultCh s) = 1 -> ctxDone s = false ->
       forall c, step (Work i c) s = None) /\
      (forall s', step (Work i CaseDone) s = Some s' ->
                  ctxDone s = true /\ workers s' !! i = Some WExit /\
                  sent s' = sent s /\ resultCh s' = resultCh s /\
                  ctxDone s' = ctxDone s) /\
      (forall s', step (Work i CaseSend) s = Some s' ->
                  resultCh s = [] /\ workers s' !! i = Some WCancel /\
                  resultCh s' = [r] /\
                  sent s' = (sent s ++ [(i, r)])%list) /\
      ((exists s', step (Work i CaseSend) s = Some s') <-> resultCh s = []) /\
      ((exists s', step (Work i CaseDone) s = Some s') <-> ctxDone s = true))).
Proof.
  split; [apply stateAfter_reachable|].
  apply (single_receive_protocol unicodeLower base58Encode keySource
                                 NumCPU cfg s).
  apply stateAfter_reachable.
Defined.


End RaceRun.

Section EmptyPatternRun.

Local Abbreviation unicodeLower := Demo.noUnicode.
Local Abbreviation base58Encode := Base58.Encode.
Local Abbreviation keySource := Demo.zeroKeys.
Local Abbreviation NumCPU := 4%Z.
Local Abbreviation cfg := Demo.cfgEmpty.
Local Abbreviation step :=
  (step unicodeLower base58Encode keySource NumCPU cfg).
Local Abbreviation reachable :=
  (reachable unicodeLower base58Encode keySource NumCPU cfg).
Local Abbreviation s :=
  (stateAfter unicodeLower base58Encode keySource NumCPU cfg [Coord]).

(** The C4 theorem after the one move of a run without a pattern. *)
Lemma empty_pattern_rejected_witness :
  prefix cfg = "" /\ postfix cfg = "" /\ reachable s /\
  (step Coord init = Some (set_coord (CExit (Some ErrNoPattern)) init) /\
   (coord s = CValidate \/ coord s = CExit (Some ErrNoPattern)) /\
   workers s = [] /\ drawn s = 0 /\ totalIterations s = 0%Z /\
   sent s = [] /\ output s = [] /\
   (forall i c, step (Work i c) s = None) /\
   (forall a, coord s = CExit (Some ErrNoPattern) -> step a s = None)).
Proof.
  split; [reflexivity|]. split; [reflexivity|].
  split; [apply stateAfter_reachable|].
  apply (empty_pattern_rejected unicodeLower base58Encode keySource
                                NumCPU cfg s);
    [reflexivity|reflexivity|apply stateAfter_reachable].
Defined.

End EmptyPatternRun.

Section FailingDraw.

Local Abbreviation unicodeLower := Demo.noUnicode.
Local Abbreviation base58Encode := Base58.Encode.
Local Abbreviation keySource := Demo.failFirst.
Local Abbreviation NumCPU := 1%Z.
Local Abbreviation cfg := Demo.cfgOne.
Local Abbreviation step :=
  (step unicodeLower base58Encode keySource NumCPU cfg).
Local Abbreviation s :=
  (stateAfter unicodeLower base58Encode keySource NumCPU cfg
              Demo.firstDraw).
Local Abbreviation i := 0.
Local Abbreviation c := CaseSend.

(** The C6 theorem at the first call of [GenerateKey] of a run whose
    entropy source fails once. *)
Lemma keygen_failure_skips_iteration_witness :
  workers s !! i = Some WGenerate /\
  keySource (drawn s) = None /\
  exists s',
    step (Work i c) s = Some s' /\
    workers s' !! i = Some WCheck /\
    (forall j, j <> i -> workers s' !! j = workers s !! j) /\
    length (workers s') = length (workers s) /\
    coord s' = coord s /\ resultCh s' = resultCh s /\
    ctxDone s' = ctxDone s /\ wg s' = wg s /\
    totalIterations s' = totalIterations s /\
    output s' = output s /\ sent s' = sent s /\
    drawn s' = S (drawn s).
Proof.
  split; [reflexivity|]. split; [reflexivity|].
  apply (keygen_failure_skips_iteration unicodeLower base58Encode keySource
                                        NumCPU cfg s i c);
    reflexivity.
Defined.

End FailingDraw.

Section SoloRun.

Local Abbreviation unicodeLower := Demo.noUnicode.
Local Abbreviation base58Encode := Base58.Encode.
Local Abbreviation keySource := Demo.scenarioKeys.
Local Abbreviation NumCPU := 1%Z.
Local Abbreviation cfg := Demo.cfgAAA.
Local Abbreviation pk1 := Demo.pkXyz.
Local Abbreviation pk2 := Demo.pkBbb.
Local Abbreviation pk3 := Demo.pkAAA.
Local Abbreviation sk1 := (x01 :: Demo.pkXyz).
Local Abbreviation sk2 := (x02 :: Demo.pkBbb).
Local Abbreviation sk3 := (x03 :: Demo.pkAAA).
Local Abbreviation step :=
  (step unicodeLower base58Encode keySource NumCPU cfg).
Local Abbreviation exec :=
  (exec unicodeLower base58Encode keySource NumCPU cfg).
Local Abbreviation reachable :=
  (reachable unicodeLower base58Encode keySource NumCPU cfg).
Local Abbreviation s :=
  (stateAfter unicodeLower base58Encode keySource NumCPU cfg
              Demo.soloSchedule).

(** The scenario run under the Base58 encoder ends with the report of
    the third key and three attempts. *)
Example solo_run_report :
  output s
  = [ LStarted; LFound "AAAxyz123"; LAttempts 3; LPublicKey "AAAxyz123";
      LPrivateKey "WGBDPSTppb";
      LPrivateKeyJSON
        (String.concat JSON.nl
           ["["; "  3,"; "  4,"; "  42,"; "  172,"; "  49,"; "  61,";
            "  19,"; "  196"; "]"]) ]
  /\ coord s = CExit None /\ totalIterations s = 3%Z.
Proof. vm_compute. repeat split. Qed.

(** The C10 theorem at the end of the scenario run. *)
Lemma published_address_is_encoded_key_witness :
  reachable s /\
  ((forall i r, In (i, r) (sent s) ->
                base58Encode (ResPublicKey r) = Address r) /\
   (forall r, received s = Some r ->
              base58Encode (ResPublicKey r) = Address r) /\
   (forall a t, In (LFound a) (output s) ->
                In (LPublicKey t) (output s) -> t = a)).
Proof.
  split; [apply stateAfter_reachable|].
  apply (published_address_is_encoded_key unicodeLower base58Encode
                                          keySource NumCPU cfg s).
  apply stateAfter_reachable.
Defined.

(** The C5 theorem for three keys whose Base58 texts are the addresses
    of the scenario, at the end of the run. *)
Lemma prefix_scenario_third_key_witness :
  keySource 0 = Some (pk1, sk1) /\
  keySource 1 = Some (pk2, sk2) /\
  keySource 2 = Some (pk3, sk3) /\
  base58Encode pk1 = "xyz" /\
  base58Encode pk2 = "bbb" /\
  base58Encode pk3 = "AAAxyz123" /\
  reachable s /\
  ((drawn s < 3 ->
    sent s = [] /\ forall i r, workers s !! i <> Some (WPublish r)) /\
   (forall i r, In (i, r) (sent s) ->
                i = 0 /\ r = mkResult "AAAxyz123" pk3 sk3) /\
   (forall r, received s = Some r -> r = mkResult "AAAxyz123" pk3 sk3) /\
   (forall i, workers s !! i = Some WGenerate ->
              totalIterations s = (Z.of_nat (drawn s) + 1)%Z) /\
   (forall i r, workers s !! i = Some (WPublish r) ->
                r = mkResult "AAAxyz123" pk3 sk3 /\ drawn s = 3
                /\ totalIterations s = 3%Z) /\
   (sent s <> [] -> totalIterations s = 3%Z) /\
   (forall n, In (LAttempts n) (output s) -> n = 3%Z) /\
   (forall e, coord s = CExit e ->
              e = None /\ totalIterations s = 3%Z /\
              exists text,
                privateKeyToJSON sk3 = inl text /\
                output s = [ LStarted; LFound "AAAxyz123"; LAttempts 3;
                             LPublicKey "AAAxyz123";
                             LPrivateKey (base58Encode sk3);
                             LPrivateKeyJSON text ]) /\
   ((forall e, coord s <> CExit e) -> exists a s', step a s = Some s') /\
   (exists text final,
       exec Demo.soloSchedule init = Some final /\
       coord final = CExit None /\ totalIterations final = 3%Z /\
       sent final = [(0, mkResult "AAAxyz123" pk3 sk3)] /\
       output final = [ LStarted; LFound "AAAxyz123"; LAttempts 3;
                        LPublicKey "AAAxyz123";
                        LPrivateKey (base58Encode sk3);
                        LPrivateKeyJSON text ])).
Proof.
  do 6 (split; [reflexivity|]).
  split; [apply stateAfter_reachable|].
  apply (prefix_scenario_third_key unicodeLower base58Encode keySource
           pk1 pk2 pk3 sk1 sk2 sk3);
    try reflexivity.
  apply stateAfter_reachable.
Defined.

End SoloRun.

(** ** More on the search *)

Section CountFacts.

Lemma countPC_app (p : WorkerPC -> bool) (l1 l2 : list WorkerPC) :
  countPC p (l1 ++ l2) = countPC p l1 + countPC p l2.
Proof. induction l1 as [|w l1 IH]; simpl; [reflexivity|]. rewrite IH. lia. Qed.

(** Replacing the place of one worker moves the count by that worker. *)
Lemma countPC_insert (p : WorkerPC -> bool) (l : list WorkerPC) :
  forall (i : nat) (old new : WorkerPC),
    l !! i = Some old ->
    countPC p (<[i:=new]> l) + (if p old then 1 else 0)
    = countPC p l + (if p new then 1 else 0).
Proof.
  induction l as [|w l IH]; intros i old new Hi; [discriminate|].
  destruct i as [|i]; simpl in *.
  - injection Hi as ->. lia.
  - specialize (IH i old new Hi). lia.
Qed.

Lemma countPC_insert_same (p : WorkerPC -> bool) (l : list WorkerPC)
      (i : nat) (old new : WorkerPC) :
  l !! i = Some old -> p old = p new ->
  countPC p (<[i:=new]> l) = countPC p l.
Proof.
  intros Hi Hp. pose proof (countPC_insert p l i old new Hi) as H.
  rewrite Hp in H. lia.
Qed.

Lemma countPC_zero (p : WorkerPC -> bool) (l : list WorkerPC) :
  countPC p l = 0 -> forall i pc, l !! i = Some pc -> p pc = false.
Proof.
  induction l as [|w l IH]; intros H i pc Hi; [discriminate|].
  simpl in H. destruct (p w) eqn:Hw; [lia|].
  destruct i as [|i]; simpl in Hi.
  - now injection Hi as <-.
  - apply (IH H i pc Hi).
Qed.

Lemma countPC_pos (p : WorkerPC -> bool) (l : list WorkerPC) :
  0 < countPC p l -> exists i pc, l !! i = Some pc /\ p pc = true.
Proof.
  induction l as [|w l IH]; simpl; intros H; [lia|].
  destruct (p w) eqn:Hw.
  - exists 0, w. now split.
  - destruct (IH H) as (i & pc & Hi & Hp). exists (S i), pc. now split.
Qed.

Lemma wrapInt64_succ (x : Z) :
  wrapInt64 (wrapInt64 x + 1) = wrapInt64 (x + 1).
Proof.
  unfold wrapInt64. f_equal.
  replace ((x + 2 ^ 63) mod 2 ^ 64 - 2 ^ 63 + 1 + 2 ^ 63)%Z
    with ((x + 2 ^ 63) mod 2 ^ 64 + 1)%Z by lia.
  replace (x + 1 + 2 ^ 63)%Z with ((x + 2 ^ 63) + 1)%Z by lia.
  now rewrite Zplus_mod_idemp_l.
Qed.

End CountFacts.

Section SearchMore.

Variable unicodeLower : string -> string.
Variable base58Encode : list Byte.byte -> string.
Variable keySource : nat -> option (PublicKey * PrivateKey).
Variable NumCPU : Z.
Variable cfg : SearchConfig.

Local Abbreviation step := (step unicodeLower base58Encode keySource NumCPU cfg).
Local Abbreviation reachable :=
  (reachable unicodeLower base58Encode keySource NumCPU cfg).
Local Abbreviation worker_step :=
  (worker_step unicodeLower base58Encode keySource cfg).
Local Abbreviation coord_step := (coord_step base58Encode NumCPU cfg).
Local Abbreviation found := (foundBy unicodeLower base58Encode keySource cfg).
Local Abbreviation foundInv :=
  (found_inv unicodeLower base58Encode keySource cfg).
Local Abbreviation exec := (exec unicodeLower base58Encode keySource NumCPU cfg).

(** *** Where a Result comes from *)

Lemma foundBy_mono (n m : nat) (r : Result) :
  n <= m -> found n r -> found m r.
Proof.
  intros Hnm (Ha & Hm & k & Hk & Hs). split; [exact Ha|]. split; [exact Hm|].
  exists k. split; [lia|exact Hs].
Qed.

Lemma found_inv_step (a : Action) (s s' : State) :
  foundInv s -> step a s = Some s' -> foundInv s'.
Proof.
  intros (Hpub & Hsent) Hstep. unfold found_inv.
  destruct a as [|i c]; simpl in Hstep.
  - unfold coord_step in Hstep. break_step Hstep; simpl_state;
      try (split; [exact Hpub|exact Hsent]).
    split; [|exact Hsent]. intros j r Hj.
    apply lookup_app_Some in Hj as [Hj|[_ Hj]]; [now apply (Hpub j)|].
    apply list_lookup_singleton_Some in Hj as [_ Hj]. discriminate Hj.
  - unfold worker_step in Hstep.
    destruct (workers s !! i) as [pc0|] eqn:Hi; [|discriminate].
    assert (Hlt : i < length (workers s)) by (now apply lookup_lt_Some in Hi).
    assert (Hkeep : forall pc n, drawn s <= n ->
              (forall r, pc = WPublish r -> found n r) ->
              forall j r, <[i:=pc]> (workers s) !! j = Some (WPublish r) ->
                          found n r).
    { intros pc n Hn Hpc j r Hj. destruct (decide (i = j)) as [->|Hne].
      - rewrite list_lookup_insert_eq in Hj by exact Hlt.
        injection Hj as ->. now apply Hpc.
      - rewrite list_lookup_insert_ne in Hj by exact Hne.
        apply (foundBy_mono (drawn s)); [exact Hn|]. now apply (Hpub j). }
    assert (Hsent' : forall n, drawn s <= n ->
              forall j r, In (j, r) (sent s) -> found n r).
    { intros n Hn j r Hin. apply (foundBy_mono (drawn s)); [exact Hn|].
      now apply (Hsent j). }
    destruct pc0; break_step Hstep; simpl_state;
      try (split; [apply Hkeep; [lia|discriminate] | apply Hsent'; lia]).
    + (* a key that passes the test *)
      split; [|apply Hsent'; lia]. apply Hkeep; [lia|].
      intros r [= <-]. split; [reflexivity|]. split; [exact Heqb|].
      exists (drawn s). split; [lia|exact Heqo].
    + (* the send *)
      split; [apply Hkeep; [lia|discriminate]|].
      intros j r0 Hin. apply in_app_or in Hin as [Hin|[[= <- <-]|[]]];
        [now apply (Hsent j)|now apply (Hpub i)].
Qed.

Lemma found_inv_reachable (s : State) : reachable s -> foundInv s.
Proof.
  induction 1 as [|a s s' _ IH Hstep].
  - split; [intros i r [=]|intros i r []].
  - eapply found_inv_step; eauto.
Qed.

(** *** Joining the workers *)

Lemma join_inv_step (a : Action) (s s' : State) :
  reachable s -> join_inv s -> step a s = Some s' -> join_inv s'.
Proof.
  intros Hs (Hwg & Hret & Hcan & Hall) Hstep.
  pose proof (channel_inv_reachable _ _ _ _ _ s Hs) as (_ & Hcnt & _).
  pose proof (spawn_inv_reachable _ _ _ _ _ s Hs) as Hsp.
  unfold join_inv. destruct a as [|i c]; simpl in Hstep.
  - unfold coord_step in Hstep.
    destruct (coord s) as [|k| |r|r|e|e] eqn:Hc; simpl_state;
      break_step Hstep; simpl_state.
    + do 3 (split; [assumption|]). discriminate.
    + do 3 (split; [assumption|]). discriminate.
    + (* a worker is started *)
      split; [rewrite countPC_app; simpl; lia|]. split; [|split].
      * intros j pc Hj Hr.
        apply lookup_app_Some in Hj as [Hj|[_ Hj]]; [now apply (Hret j pc)|].
        apply list_lookup_singleton_Some in Hj as [_ <-]. discriminate Hr.
      * intros [Hd|[j Hj]]; apply Hcan; [now left|right].
        apply lookup_app_Some in Hj as [Hj|[_ Hj]]; [now exists j|].
        apply list_lookup_singleton_Some in Hj as [_ Hj]. discriminate Hj.
      * discriminate.
    + do 3 (split; [assumption|]). discriminate.
    + do 3 (split; [assumption|]). discriminate.
    + (* line 140: the counter is zero *)
      do 3 (split; [assumption|]). intros _ j pc Hj.
      apply Z.eqb_eq in Heqb. rewrite Hwg in Heqb.
      assert (Hz : countPC notDone (workers s) = 0) by lia.
      pose proof (countPC_zero _ _ Hz j pc Hj) as Hnd.
      destruct pc; try discriminate Hnd. reflexivity.
    + pose proof (report_err _ _ _ _ _ Heqp) as Herr.
      do 3 (split; [assumption|]). intros _. now apply Hall.
    + (* the deferred cancel() *)
      assert (Hne : sent s <> []).
      { unfold spawn_inv in Hsp. rewrite Hc in Hsp.
        destruct e as [[|e]|]; [contradiction| |];
          simpl in Hcnt; intros Hnil; rewrite Hnil in Hcnt;
          simpl in Hcnt; lia. }
      split; [exact Hwg|]. split; [reflexivity|]. split; [auto|].
      exact Hall.
  - unfold worker_step in Hstep.
    destruct (workers s !! i) as [pc0|] eqn:Hi; [|discriminate].
    assert (Hlt : i < length (workers s)) by (now apply lookup_lt_Some in Hi).
    assert (Hnp : pastWait (coord s) = true -> pc0 = WDone)
      by (intros Hp; now apply (Hall Hp i)).
    (* what a move of worker [i] to [pc] keeps *)
    assert (Hret' : forall pc d, (ctxDone s = true -> d = true) ->
              (hasReturned pc = true -> d = true) ->
              forall j p, <[i:=pc]> (workers s) !! j = Some p ->
                          hasReturned p = true -> d = true).
    { intros pc d Hd Hpc j p Hj Hp. destruct (decide (i = j)) as [->|Hne].
      - rewrite list_lookup_insert_eq in Hj by exact Hlt.
        injection Hj as <-. now apply Hpc.
      - rewrite list_lookup_insert_ne in Hj by exact Hne.
        apply Hd. now apply (Hret j p). }
    assert (Hcan' : forall pc, pc <> WCancel ->
              (exists j, <[i:=pc]> (workers s) !! j = Some WCancel) ->
              exists j, workers s !! j = Some WCancel).
    { intros pc Hpc [j Hj]. exists j. destruct (decide (i = j)) as [->|Hne].
      - rewrite list_lookup_insert_eq in Hj by exact Hlt. congruence.
      - now rewrite list_lookup_insert_ne in Hj by exact Hne. }
    assert (Hall' : forall pc, pc0 <> WDone ->
              pastWait (coord s) = true ->
              forall j p, <[i:=pc]> (workers s) !! j = Some p -> p = WDone).
    { intros pc Hpc Hp. now elim Hpc; apply Hnp. }
    destruct pc0; break_step Hstep; simpl_state;
      try match goal with H : ctxDone s = _ |- _ => rewrite !H end.
    + (* line 92, cancelled *)
      split; [now rewrite (countPC_insert_same _ _ _ WCheck)|].
      split; [apply Hret'; auto|].
      split; [|now apply Hall'].
      intros [Hd|Hj]; apply Hcan; [now left|right].
      eapply Hcan'; [|exact Hj]; discriminate.
    + split; [now rewrite (countPC_insert_same _ _ _ WCheck)|].
      split; [apply Hret'; [auto|discriminate]|].
      split; [|now apply Hall'].
      intros [Hd|Hj]; apply Hcan; [now left|right].
      eapply Hcan'; [|exact Hj]; discriminate.
    + split; [now rewrite (countPC_insert_same _ _ _ WCount)|].
      split; [apply Hret'; [auto|discriminate]|].
      split; [|now apply Hall'].
      intros [Hd|Hj]; apply Hcan; [now left|right].
      eapply Hcan'; [|exact Hj]; discriminate.
    + split; [now rewrite (countPC_insert_same _ _ _ WGenerate)|].
      split; [apply Hret'; [auto|discriminate]|].
      split; [|now apply Hall'].
      intros [Hd|Hj]; apply Hcan; [now left|right].
      eapply Hcan'; [|exact Hj]; discriminate.
    + split; [now rewrite (countPC_insert_same _ _ _ WGenerate)|].
      split; [apply Hret'; [auto|discriminate]|].
      split; [|now apply Hall'].
      intros [Hd|Hj]; apply Hcan; [now left|right].
      eapply Hcan'; [|exact Hj]; discriminate.
    + split; [now rewrite (countPC_insert_same _ _ _ WGenerate)|].
      split; [apply Hret'; [auto|discriminate]|].
      split; [|now apply Hall'].
      intros [Hd|Hj]; apply Hcan; [now left|right].
      eapply Hcan'; [|exact Hj]; discriminate.
    + (* the send *)
      split; [now rewrite (countPC_insert_same _ _ _ (WPublish r))|].
      split; [apply Hret'; [auto|discriminate]|].
      split; [|now apply Hall'].
      intros _ Hnil. now apply app_eq_nil in Hnil as [_ [=]].
    + (* the cancellation case *)
      split; [now rewrite (countPC_insert_same _ _ _ (WPublish r))|].
      split; [apply Hret'; auto|].
      split; [|now apply Hall'].
      intros [Hd|Hj]; apply Hcan; [now left|right].
      eapply Hcan'; [|exact Hj]; discriminate.
    + (* line 129 *)
      split; [now rewrite (countPC_insert_same _ _ _ WCancel)|].
      split; [apply Hret'; auto|].
      split; [|now apply Hall'].
      intros _. apply Hcan. right. now exists i.
    + (* the deferred wg.Done() *)
      split.
      { pose proof (countPC_insert notDone _ _ _ WDone Hi) as Hc.
        simpl in Hc. rewrite Hwg. lia. }
      split; [apply Hret'; [auto|]; intros _; now apply (Hret i WExit)|].
      split; [|now apply Hall'].
      intros [Hd|Hj]; apply Hcan; [now left|right].
      eapply Hcan'; [|exact Hj]; discriminate.
Qed.

Lemma join_inv_reachable (s : State) : reachable s -> join_inv s.
Proof.
  induction 1 as [|a s s' Hs IH Hstep].
  - split; [reflexivity|]. split; [intros i pc [=]|].
    split; [intros [[=]|[i [=]]]|discriminate].
  - eapply join_inv_step; eauto.
Qed.

(** *** The attempt counter *)

Lemma counter_inv_reachable (s : State) : reachable s -> counter_inv s.
Proof.
  induction 1 as [|a s s' Hs IH Hstep]; [reflexivity|].
  unfold counter_inv in *. destruct a as [|i c]; simpl in Hstep.
  - unfold coord_step in Hstep. break_step Hstep; simpl_state;
      try exact IH.
    rewrite countPC_app. simpl. now rewrite Nat.add_0_r.
  - unfold worker_step in Hstep.
    destruct (workers s !! i) as [pc0|] eqn:Hi; [|discriminate].
    destruct pc0; break_step Hstep; simpl_state;
      try (erewrite countPC_insert_same by (exact Hi || reflexivity);
           exact IH).
    + (* line 97 *)
      pose proof (countPC_insert isGenerating _ _ _ WGenerate Hi) as Hc.
      simpl in Hc. rewrite IH, wrapInt64_succ. f_equal. lia.
    + pose proof (countPC_insert isGenerating _ _ _
                    (WPublish (mkResult (base58Encode p0) p0 p1)) Hi) as Hc.
      simpl in Hc. rewrite IH. f_equal. lia.
    + pose proof (countPC_insert isGenerating _ _ _ WCheck Hi) as Hc.
      simpl in Hc. rewrite IH. f_equal. lia.
    + pose proof (countPC_insert isGenerating _ _ _ WCheck Hi) as Hc.
      simpl in Hc. rewrite IH. f_equal. lia.
Qed.

Lemma all_done_no_generating (ws : list WorkerPC) :
  (forall i pc, ws !! i = Some pc -> pc = WDone) ->
  countPC isGenerating ws = 0.
Proof.
  induction ws as [|w ws IH]; intros H; [reflexivity|].
  simpl. rewrite (H 0 w eq_refl). simpl. apply IH.
  intros i pc Hi. apply (H (S i) pc Hi).
Qed.

(** *** What is printed *)

Lemma printed_inv_reachable (s : State) :
  reachable s -> printed_inv base58Encode s.
Proof.
  induction 1 as [|a s s' Hs IH Hstep]; [reflexivity|].
  pose proof (channel_inv_reachable _ _ _ _ _ s Hs) as (_ & _ & Hhead).
  destruct (join_inv_reachable s Hs) as (_ & _ & _ & Hall).
  unfold printed_inv in *. destruct a as [|i c]; simpl in Hstep.
  - unfold coord_step in Hstep.
    destruct (coord s) as [|k| |r|r|e|e] eqn:Hc; simpl_state;
      break_step Hstep; simpl_state; try exact IH.
    + now rewrite IH.
    + (* lines 141-152 *)
      destruct (report_lines base58Encode r (totalIterations s))
        as (text & Hrep & Htext).
      rewrite Hrep in Heqp. injection Heqp as <- <-.
      destruct (Hhead r) as [i Hi]; [unfold received; now rewrite Hc|].
      exists i, r, text. split; [exact Hi|]. split; [exact Htext|].
      now rewrite IH.
  - unfold worker_step in Hstep.
    destruct (workers s !! i) as [pc0|] eqn:Hi; [|discriminate].
    assert (Hnp : pastWait (coord s) = true -> pc0 = WDone)
      by (intros Hp; now apply (Hall Hp i)).
    destruct (coord s) as [|k| |r|r|[[|e]|]|[[|e]|]] eqn:Hc;
      try (rewrite (Hnp eq_refl) in Hstep; discriminate Hstep);
      destruct pc0; break_step Hstep; simpl_state; rewrite ?Hc; exact IH.
Qed.

(** *** Some goroutine can always move *)

Lemma can_move_unless_blocked (s : State) (i : nat) (pc : WorkerPC) :
  workers s !! i = Some pc ->
  pc <> WDone ->
  (forall r, pc = WPublish r -> resultCh s = [] \/ ctxDone s = true) ->
  exists c s', step (Work i c) s = Some s'.
Proof.
  intros Hi Hnd Hpub. simpl. unfold worker_step. rewrite Hi.
  destruct pc; try (exists CaseSend; eexists; reflexivity).
  - exists CaseSend. destruct (ctxDone s); eexists; reflexivity.
  - exists CaseSend. destruct (keySource (drawn s)) as [[pk sk]|];
      [destruct (matches _ _ _)|]; eexists; reflexivity.
  - destruct (Hpub r eq_refl) as [Hnil|Hd].
    + exists CaseSend. rewrite Hnil. eexists; reflexivity.
    + exists CaseDone. rewrite Hd. eexists; reflexivity.
  - contradiction.
Qed.

Lemma head_In {A : Type} (l : list A) (x : A) : head l = Some x -> In x l.
Proof. destruct l as [|y l]; [discriminate|]. intros [= ->]. now left. Qed.

(** X1: every Result that was sent, the Result the coordinator holds,
    and the address it prints pass the pattern test of the run. *)
Theorem reported_address_matches (s : State) :
  reachable s ->
  (forall i r, In (i, r) (sent s) ->
               matches unicodeLower (Address r) cfg = true) /\
  (forall r, received s = Some r ->
             matches unicodeLower (Address r) cfg = true) /\
  (forall a, In (LFound a) (output s) ->
             matches unicodeLower a cfg = true).
Proof.
  intros Hs. destruct (found_inv_reachable s Hs) as [_ Hsent].
  pose proof (channel_inv_reachable _ _ _ _ _ s Hs) as (_ & _ & Hhead).
  pose proof (printed_inv_reachable s Hs) as Hout.
  split; [|split].
  - intros i r Hin. now destruct (Hsent i r Hin) as (_ & Hm & _).
  - intros r Hr. destruct (Hhead r Hr) as [i Hi]. apply head_In in Hi.
    now destruct (Hsent i r Hi) as (_ & Hm & _).
  - intros a Ha. unfold printed_inv in Hout.
    destruct (coord s) as [|k| |r|r|[[|e]|]|[[|e]|]];
      try (rewrite Hout in Ha; simpl in Ha; intuition discriminate);
      try contradiction;
      destruct Hout as (i & r & text & Hi & _ & Hout);
      rewrite Hout in Ha; simpl in Ha;
      destruct Ha as [Ha|[Ha|Ha]]; try discriminate Ha;
      try (injection Ha as <-; apply head_In in Hi;
           now destruct (Hsent i r Hi) as (_ & Hm & _));
      intuition discriminate.
Qed.

(** X2: the public and the private key of every Result that was sent or
    received were returned together by one call of [GenerateKey] that
    the run has made, and the address is the encoding of that public
    key. *)
Theorem result_keys_from_one_draw (s : State) :
  reachable s ->
  (forall i r, In (i, r) (sent s) ->
     exists k, k < drawn s /\
               keySource k = Some (ResPublicKey r, ResPrivateKey r) /\
               Address r = base58Encode (ResPublicKey r)) /\
  (forall r, received s = Some r ->
     exists k, k < drawn s /\
               keySource k = Some (ResPublicKey r, ResPrivateKey r) /\
               Address r = base58Encode (ResPublicKey r)).
Proof.
  intros Hs. destruct (found_inv_reachable s Hs) as [_ Hsent].
  pose proof (channel_inv_reachable _ _ _ _ _ s Hs) as (_ & _ & Hhead).
  assert (H : forall i r, In (i, r) (sent s) ->
     exists k, k < drawn s /\
               keySource k = Some (ResPublicKey r, ResPrivateKey r) /\
               Address r = base58Encode (ResPublicKey r)).
  { intros i r Hin. destruct (Hsent i r Hin) as (Ha & _ & k & Hk & Hks).
    now exists k. }
  split; [exact H|].
  intros r Hr. destruct (Hhead r Hr) as [i Hi]. apply head_In in Hi.
  now apply (H i).
Qed.

(** X3: cancellation is signalled only after a Result has been sent, and
    a worker returns only after cancellation has been signalled. *)
Theorem cancel_follows_send (s : State) :
  reachable s ->
  (ctxDone s = true -> sent s <> []) /\
  (forall i pc, workers s !! i = Some pc -> hasReturned pc = true ->
                ctxDone s = true /\ sent s <> []).
Proof.
  intros Hs. destruct (join_inv_reachable s Hs) as (_ & Hret & Hcan & _).
  split; [intros Hd; apply Hcan; now left|].
  intros i pc Hi Hr. pose proof (Hret i pc Hi Hr) as Hd.
  split; [exact Hd|]. apply Hcan. now left.
Qed.

(** X4: the wait group counts the workers that have not ended, and once
    the coordinator is past [wg.Wait()] every worker has ended: none of
    them can move any more. *)
Theorem wait_joins_all_workers (s : State) :
  reachable s ->
  wg s = Z.of_nat (countPC notDone (workers s)) /\
  (pastWait (coord s) = true ->
   (forall i pc, workers s !! i = Some pc -> pc = WDone) /\
   wg s = 0%Z /\
   (forall i c, step (Work i c) s = None)).
Proof.
  intros Hs. destruct (join_inv_reachable s Hs) as (Hwg & _ & _ & Hall).
  split; [exact Hwg|]. intros Hp. specialize (Hall Hp).
  split; [exact Hall|]. split.
  - rewrite Hwg. f_equal.
    clear Hwg. induction (workers s) as [|w ws IH]; [reflexivity|].
    simpl. rewrite (Hall 0 w eq_refl). simpl. apply IH.
    intros i pc Hi. apply (Hall (S i) pc Hi).
  - intros i c. simpl. unfold worker_step.
    destruct (workers s !! i) as [pc|] eqn:Hi; [|reflexivity].
    now rewrite (Hall i pc Hi).
Qed.

(** X5: the attempt counter is, in [int64], the number of calls of
    [GenerateKey] made so far plus the number of workers that have
    counted an attempt and not yet drawn its key; once the workers are
    joined, and in the line the report prints, it is the number of
    calls made in the whole run, failed ones included. *)
Theorem attempts_count_draws (s : State) :
  reachable s ->
  totalIterations s
  = wrapInt64 (Z.of_nat (drawn s + countPC isGenerating (workers s))) /\
  (pastWait (coord s) = true ->
   totalIterations s = wrapInt64 (Z.of_nat (drawn s))) /\
  (forall n, In (LAttempts n) (output s) ->
             n = wrapInt64 (Z.of_nat (drawn s))).
Proof.
  intros Hs. pose proof (counter_inv_reachable s Hs) as Hcount.
  destruct (join_inv_reachable s Hs) as (_ & _ & _ & Hall).
  pose proof (printed_inv_reachable s Hs) as Hout.
  unfold counter_inv in Hcount.
  assert (Hpast : pastWait (coord s) = true ->
                  totalIterations s = wrapInt64 (Z.of_nat (drawn s))).
  { intros Hp. rewrite Hcount.
    rewrite (all_done_no_generating _ (Hall Hp)). now rewrite Nat.add_0_r. }
  split; [exact Hcount|]. split; [exact Hpast|].
  intros n Hn. unfold printed_inv in Hout.
  destruct (coord s) as [|k| |r|r|[[|e]|]|[[|e]|]];
    try (rewrite Hout in Hn; simpl in Hn; intuition discriminate);
    try contradiction;
    destruct Hout as (i & r & text & _ & _ & Hout);
    rewrite Hout in Hn; simpl in Hn;
    destruct Hn as [Hn|[Hn|[Hn|Hn]]]; try discriminate Hn;
    try (injection Hn as <-; now apply Hpast);
    intuition discriminate.
Qed.

(** X6: a run prints nothing when it returns the error of line 69, the
    start line alone while it searches, and when it returns without an
    error exactly six lines: the start line, the address of the first
    Result sent, the final attempt count, the same address again as the
    public key, the encoded private key and its JSON text. *)
Theorem run_prints_six_lines (s : State) :
  reachable s ->
  (forall e, coord s = CExit (Some e) -> output s = []) /\
  ((forall e, coord s <> CReturn e /\ coord s <> CExit e) ->
   output s = [] \/ output s = [LStarted]) /\
  (coord s = CExit None ->
   exists i r text,
     head (sent s) = Some (i, r) /\
     privateKeyToJSON (ResPrivateKey r) = inl text /\
     output s = [ LStarted; LFound (Address r);
                  LAttempts (totalIterations s);
                  LPublicKey (Address r);
                  LPrivateKey (base58Encode (ResPrivateKey r));
                  LPrivateKeyJSON text ]).
Proof.
  intros Hs. pose proof (printed_inv_reachable s Hs) as Hout.
  destruct (results_inv_reachable _ _ _ _ _ s Hs) as [_ Hwf].
  unfold printed_inv in Hout. split; [|split].
  - intros e He. rewrite He in Hout. destruct e; [exact Hout|contradiction].
  - intros Hne. destruct (coord s) as [|k| |r|r|e|e]; auto;
      now destruct (Hne e).
  - intros He. rewrite He in Hout.
    destruct Hout as (i & r & text & Hi & Htext & Hout).
    exists i, r, text. split; [exact Hi|]. split; [exact Htext|].
    rewrite Hout. unfold reportOf.
    pose proof (Hwf i r (head_In _ _ Hi)) as Hr. unfold wfResult in Hr.
    now rewrite Hr.
Qed.

(** X7: with at least one worker, a run whose coordinator has not
    returned is never stuck: the coordinator or some worker can move. *)
Theorem search_never_deadlocks (s : State) :
  (1 <= NumCPU)%Z -> reachable s ->
  (forall e, coord s <> CExit e) ->
  exists a s', step a s = Some s'.
Proof.
  intros Hn Hs Hne.
  pose proof (channel_inv_reachable _ _ _ _ _ s Hs) as (Hch & Hcnt & _).
  destruct (senders_inv_reachable _ _ _ _ _ s Hs) as (_ & Hpast).
  destruct (join_inv_reachable s Hs) as (Hwg & Hret & Hcan & _).
  pose proof (spawn_inv_reachable _ _ _ _ _ s Hs) as Hsp.
  unfold spawn_inv in Hsp.
  assert (Hw : forall i pc, workers s !! i = Some pc -> pc <> WDone ->
               (forall r, pc = WPublish r ->
                          resultCh s = [] \/ ctxDone s = true) ->
               exists a s', step a s = Some s').
  { intros i pc Hi Hnd Hpub.
    destruct (can_move_unless_blocked s i pc Hi Hnd Hpub) as (c & s' & H).
    now exists (Work i c), s'. }
  destruct (coord s) as [|k| |r|r|e|e] eqn:Hc; simpl_state.
  - exists Coord. simpl. unfold coord_step. rewrite Hc.
    destruct (_ && _); eexists; reflexivity.
  - exists Coord. simpl. unfold coord_step. rewrite Hc.
    destruct (k <? NumCPU)%Z; eexists; reflexivity.
  - (* line 139 *)
    destruct (resultCh s) as [|r rest] eqn:Hrc.
    + assert (Hnil : sent s = [])
        by (destruct (sent s); [reflexivity|discriminate Hch]).
      destruct (workers s !! 0) as [pc|] eqn:H0.
      * apply (Hw 0 pc H0); [|now left].
        intros ->. apply Hcan; [left|exact Hnil].
        now apply (Hret 0 WDone).
      * apply lookup_ge_None in H0. rewrite Hsp in H0. lia.
    + exists Coord. simpl. unfold coord_step. rewrite Hc, Hrc.
      eexists; reflexivity.
  - (* line 140 *)
    destruct (wg s =? 0)%Z eqn:Hz.
    + exists Coord. simpl. unfold coord_step. rewrite Hc, Hz.
      eexists; reflexivity.
    + apply Z.eqb_neq in Hz.
      destruct (countPC_pos notDone (workers s)) as (i & pc & Hi & Hp);
        [lia|].
      destruct (ctxDone s) eqn:Hd.
      * apply (Hw i pc Hi); [intros ->; discriminate Hp|now right].
      * destruct (sent s) as [|[j r0] h] eqn:Hse; [simpl in Hcnt; lia|].
        destruct (Hpast j r0) as (pc' & Hj & Hps); [now left|].
        apply (Hw j pc' Hj).
        -- intros ->. pose proof (Hret j WDone Hj eq_refl). discriminate.
        -- intros r1 ->. discriminate Hps.
  - exists Coord. simpl. unfold coord_step. rewrite Hc.
    destruct (report _ _ _); eexists; reflexivity.
  - exists Coord. simpl. unfold coord_step. rewrite Hc.
    eexists; reflexivity.
  - now elim (Hne e).
Qed.

(** X8: with an entropy source that always fails, every worker stays
    in its loop, nothing is sent or cancelled and the coordinator never
    gets past its receive, while attempts go on being counted: the
    counter is the number of failed calls of [GenerateKey] plus the
    workers inside one, wrapped to 64 bits, and every worker counts one
    more attempt within three moves of its own. *)
Theorem failing_entropy_keeps_counting (s : State) :
  (forall n, keySource n = None) -> reachable s ->
  (forall i pc, workers s !! i = Some pc ->
                pc = WCheck \/ pc = WCount \/ pc = WGenerate) /\
  sent s = [] /\ resultCh s = [] /\ ctxDone s = false /\
  receivedCount (coord s) = 0 /\
  totalIterations s
  = wrapInt64 (Z.of_nat (drawn s + countPC isGenerating (workers s))) /\
  (forall i pc, workers s !! i = Some pc ->
     exists sched s',
       exec sched s = Some s' /\ length sched <= 3 /\
       Forall (fun a => exists c, a = Work i c) sched /\
       totalIterations s' = wrapInt64 (totalIterations s + 1) /\
       workers s' !! i = Some WGenerate).
Proof.
  intros Hnone Hs.
  destruct (all_failures_keep_searching _ _ _ _ _ s Hnone Hs)
    as (Hw & Hsent & Hch & Hdone & Hcnt).
  do 5 (split; [assumption|]).
  split; [exact (counter_inv_reachable s Hs)|].
  intros i pc Hi. pose proof (lookup_lt_Some _ _ _ Hi) as Hlt.
  assert (Hcount : forall t, workers t !! i = Some WCount ->
            exec [Work i CaseSend] t
            = Some (set_worker i WGenerate
                      (set_totalIterations
                         (wrapInt64 (totalIterations t + 1)) t))).
  { intros t Ht. simpl. unfold worker_step. now rewrite Ht. }
  assert (Hcheck : forall t, workers t !! i = Some WCheck ->
            ctxDone t = false ->
            exec [Work i CaseSend; Work i CaseSend] t
            = Some (set_worker i WGenerate
                      (set_totalIterations
                         (wrapInt64 (totalIterations t + 1))
                         (set_worker i WCount t)))).
  { intros t Ht Hd. pose proof (lookup_lt_Some _ _ _ Ht) as Hl.
    change (exec [Work i CaseSend; Work i CaseSend] t)
      with (match step (Work i CaseSend) t with
            | Some t' => exec [Work i CaseSend] t'
            | None => None
            end).
    simpl step. unfold worker_step at 1. rewrite Ht, Hd.
    rewrite Hcount; [reflexivity|].
    simpl_state. now apply list_lookup_insert_eq. }
  destruct (Hw i pc Hi) as [->|[->| ->]].
  - exists [Work i CaseSend; Work i CaseSend]. eexists.
    split; [apply (Hcheck s Hi Hdone)|].
    split; [simpl; lia|].
    split; [repeat constructor; eexists; reflexivity|].
    simpl_state. split; [reflexivity|].
    apply list_lookup_insert_eq. now rewrite length_insert.
  - exists [Work i CaseSend]. eexists.
    split; [apply (Hcount s Hi)|].
    split; [simpl; lia|].
    split; [repeat constructor; eexists; reflexivity|].
    simpl_state. split; [reflexivity|].
    now apply list_lookup_insert_eq.
  - exists [Work i CaseSend; Work i CaseSend; Work i CaseSend]. eexists.
    split.
    + change (exec [Work i CaseSend; Work i CaseSend; Work i CaseSend] s)
        with (match step (Work i CaseSend) s with
              | Some t' => exec [Work i CaseSend; Work i CaseSend] t'
              | None => None
              end).
      simpl step. unfold worker_step at 1. rewrite Hi, Hnone.
      apply Hcheck; simpl_state; [|exact Hdone].
      now apply list_lookup_insert_eq.
    + split; [simpl; lia|].
      split; [repeat constructor; eexists; reflexivity|].
      simpl_state. split; [reflexivity|].
      apply list_lookup_insert_eq. now rewrite !length_insert.
Qed.

End SearchMore.

(** ** More on the pattern test *)

Section MatcherMore.

Variable unicodeLower : string -> string.

Lemma mapBytes_app (f : ascii -> ascii) (a b : string) :
  mapBytes f (a ++ b) = mapBytes f a ++ mapBytes f b.
Proof. induction a as [|c a IH]; simpl; [reflexivity|now rewrite IH]. Qed.

Lemma length_mapBytes (f : ascii -> ascii) (s : string) :
  String.length (mapBytes f s) = String.length s.
Proof. induction s as [|c s IH]; simpl; [reflexivity|now rewrite IH]. Qed.

Lemma isASCII_app (a b : string) :
  isASCII (a ++ b) = isASCII a && isASCII b.
Proof.
  induction a as [|c a IH]; simpl; [reflexivity|].
  rewrite IH. now rewrite andb_assoc.
Qed.

Lemma lowerByte_id (c : ascii) : isUpperByte c = false -> lowerByte c = c.
Proof. intros H. unfold lowerByte. now rewrite H. Qed.

Lemma mapBytes_lower_id (s : string) :
  hasUpper s = false -> mapBytes lowerByte s = s.
Proof.
  induction s as [|c s IH]; simpl; [reflexivity|]. intros H.
  apply orb_false_elim in H as [Hc Hs].
  now rewrite (lowerByte_id c Hc), (IH Hs).
Qed.

(** On an ASCII string [ToLower] lowers byte by byte. *)
Lemma ToLower_ascii (s : string) :
  isASCII s = true -> ToLower unicodeLower s = mapBytes lowerByte s.
Proof.
  intros H. unfold ToLower. rewrite H.
  destruct (hasUpper s) eqn:Hu; [reflexivity|].
  symmetry. now apply mapBytes_lower_id.
Qed.

Lemma length_ToLower_ascii (s : string) :
  isASCII s = true ->
  String.length (ToLower unicodeLower s) = String.length s.
Proof. intros H. rewrite (ToLower_ascii s H). apply length_mapBytes. Qed.

Lemma starts_with_lower (a p : string) :
  isASCII a = true -> starts_with a p ->
  starts_with (ToLower unicodeLower a) (ToLower unicodeLower p).
Proof.
  intros Ha [rest ->]. rewrite isASCII_app in Ha.
  apply andb_prop in Ha as [Hp Hr].
  rewrite (ToLower_ascii (p ++ rest)), (ToLower_ascii p Hp), mapBytes_app.
  - now eexists.
  - rewrite isASCII_app, Hp, Hr. reflexivity.
Qed.

Lemma ends_with_lower (a q : string) :
  isASCII a = true -> ends_with a q ->
  ends_with (ToLower unicodeLower a) (ToLower unicodeLower q).
Proof.
  intros Ha [front ->]. rewrite isASCII_app in Ha.
  apply andb_prop in Ha as [Hf Hq].
  rewrite (ToLower_ascii (front ++ q)), (ToLower_ascii q Hq), mapBytes_app.
  - now eexists.
  - rewrite isASCII_app, Hf, Hq. reflexivity.
Qed.

(** X9: for an address of ASCII bytes, as every Base58 text is, a
    pattern that matches with case sensitivity on still matches with it
    off. *)
Theorem case_insensitive_accepts_more (address p q : string) :
  isASCII address = true ->
  matches unicodeLower address (mkConfig p q true) = true ->
  matches unicodeLower address (mkConfig p q false) = true.
Proof.
  intros Ha Hm.
  apply (matches_true_iff unicodeLower) in Hm. simpl in Hm.
  destruct Hm as [Hp Hq].
  apply (matches_true_iff unicodeLower). simpl. split; intros Hne.
  - apply HasPrefix_spec, starts_with_lower; [exact Ha|].
    apply HasPrefix_spec. now apply Hp.
  - apply HasSuffix_spec, ends_with_lower; [exact Ha|].
    apply HasSuffix_spec. now apply Hq.
Qed.

(** X10: a prefix or suffix longer than the address never matches, in a
    case-sensitive search and, for ASCII strings, in a case-insensitive
    one: a match leaves room for each non-empty field. *)
Theorem match_needs_room (address : string) (cfg : SearchConfig) :
  caseSensitive cfg = true \/
  (isASCII address = true /\ isASCII (prefix cfg) = true
   /\ isASCII (postfix cfg) = true) ->
  matches unicodeLower address cfg = true ->
  (prefix cfg <> "" -> String.length (prefix cfg) <= String.length address)
  /\
  (postfix cfg <> "" -> String.length (postfix cfg) <= String.length address).
Proof.
  intros Hcase Hm. apply (matches_true_iff unicodeLower) in Hm.
  destruct Hm as [Hp Hq].
  assert (Hlen : forall f, f = prefix cfg \/ f = postfix cfg ->
            String.length (checkString unicodeLower (caseSensitive cfg) f)
            <= String.length
                 (checkString unicodeLower (caseSensitive cfg) address) ->
            String.length f <= String.length address).
  { intros f Hf. unfold checkString.
    destruct Hcase as [-> |(Ha & Hpa & Hqa)]; [auto|].
    destruct (caseSensitive cfg); [auto|].
    rewrite (length_ToLower_ascii address Ha).
    destruct Hf as [-> | ->]; now rewrite length_ToLower_ascii. }
  split; intros Hne.
  - apply Hlen; [now left|]. specialize (Hp Hne). unfold HasPrefix in Hp.
    apply andb_prop in Hp as [Hp _]. now apply Nat.leb_le.
  - apply Hlen; [now right|]. specialize (Hq Hne). unfold HasSuffix in Hq.
    apply andb_prop in Hq as [Hq _]. now apply Nat.leb_le.
Qed.

End MatcherMore.

(** ** More on [privateKeyToJSON] *)

Lemma parse_privateKeyToJSON (key : PrivateKey) (text : string) :
  privateKeyToJSON key = inl text -> JSON.parseBytes text = Some key.
Proof.
  rewrite JSONFacts.privateKeyToJSON_text. intros [= <-].
  destruct key as [|b bs]; [reflexivity|].
  unfold JSON.parseBytes.
  change (JSON.parseFrom JSON.POpen []
            (JSON.formatInt (intOfByte b) ++ JSON.restOf bs)
          = Some (b :: bs)).
  rewrite JSONFacts.parse_digits_open.
  apply (JSONFacts.parse_rest bs b []).
Qed.

Lemma join_concat (sep : string) (parts : list string) :
  JSON.join sep parts = String.concat sep parts.
Proof.
  induction parts as [|p [|p' rest] IH]; simpl in *; congruence.
Qed.

(** X11: two private keys with the same JSON text are the same key. *)
Theorem privateKeyToJSON_injective (k1 k2 : PrivateKey) :
  privateKeyToJSON k1 = privateKeyToJSON k2 -> k1 = k2.
Proof.
  intros H. destruct (privateKeyToJSON_text_ok k1) as [text H1].
  pose proof H1 as H2. rewrite H in H2.
  apply parse_privateKeyToJSON in H1, H2. congruence.
Qed.

(** X12: the JSON text of a key is [[]] for the empty key, and otherwise
    an opening bracket, the decimal values of the bytes in order, each
    on a line of its own after two spaces and with a comma between
    them, and a closing bracket on the last line. *)
Theorem privateKeyToJSON_layout (key : PrivateKey) :
  privateKeyToJSON key
  = inl match key with
        | [] => "[]"
        | _ :: _ =>
            "[" ++ JSON.nl ++ "  "
                ++ String.concat ("," ++ JSON.nl ++ "  ")
                     (map (fun b => JSON.formatInt (intOfByte b)) key)
                ++ JSON.nl ++ "]"
        end.
Proof.
  rewrite JSONFacts.privateKeyToJSON_text. f_equal.
  destruct key as [|b bs]; [reflexivity|].
  rewrite <- (JSONFacts.join_restOf b bs), join_concat.
  rewrite map_map. reflexivity.
Qed.

(** ** More concrete runs *)

Section SoloRunMore.

Local Abbreviation unicodeLower := Demo.noUnicode.
Local Abbreviation base58Encode := Base58.Encode.
Local Abbreviation keySource := Demo.scenarioKeys.
Local Abbreviation NumCPU := 1%Z.
Local Abbreviation cfg := Demo.cfgAAA.
Local Abbreviation step :=
  (step unicodeLower base58Encode keySource NumCPU cfg).
Local Abbreviation reachable :=
  (reachable unicodeLower base58Encode keySource NumCPU cfg).
Local Abbreviation s :=
  (stateAfter unicodeLower base58Encode keySource NumCPU cfg
              Demo.soloSchedule).

(** X1 at the end of the scenario run. *)
Lemma reported_address_matches_witness :
  reachable s /\
  ((forall i r, In (i, r) (sent s) ->
                matches unicodeLower (Address r) cfg = true) /\
   (forall r, received s = Some r ->
              matches unicodeLower (Address r) cfg = true) /\
   (forall a, In (LFound a) (output s) ->
              matches unicodeLower a cfg = true)).
Proof.
  split; [apply stateAfter_reachable|].
  apply (reported_address_matches unicodeLower base58Encode keySource
                                  NumCPU cfg s).
  apply stateAfter_reachable.
Defined.

(** X2 at the end of the scenario run. *)
Lemma result_keys_from_one_draw_witness :
  reachable s /\
  ((forall i r, In (i, r) (sent s) ->
      exists k, k < drawn s /\
                keySource k = Some (ResPublicKey r, ResPrivateKey r) /\
                Address r = base58Encode (ResPublicKey r)) /\
   (forall r, received s = Some r ->
      exists k, k < drawn s /\
                keySource k = Some (ResPublicKey r, ResPrivateKey r) /\
                Address r = base58Encode (ResPublicKey r))).
Proof.
  split; [apply stateAfter_reachable|].
  apply (result_keys_from_one_draw unicodeLower base58Encode keySource
                                   NumCPU cfg s).
  apply stateAfter_reachable.
Defined.

(** X4 at the end of the scenario run. *)
Lemma wait_joins_all_workers_witness :
  reachable s /\
  (wg s = Z.of_nat (countPC notDone (workers s)) /\
   (pastWait (coord s) = true ->
    (forall i pc, workers s !! i = Some pc -> pc = WDone) /\
    wg s = 0%Z /\
    (forall i c, step (Work i c) s = None))).
Proof.
  split; [apply stateAfter_reachable|].
  apply (wait_joins_all_workers unicodeLower base58Encode keySource
                                NumCPU cfg s).
  apply stateAfter_reachable.
Defined.

(** X5 at the end of the scenario run. *)
Lemma attempts_count_draws_witness :
  reachable s /\
  (totalIterations s
   = wrapInt64 (Z.of_nat (drawn s + countPC isGenerating (workers s))) /\
   (pastWait (coord s) = true ->
    totalIterations s = wrapInt64 (Z.of_nat (drawn s))) /\
   (forall n, In (LAttempts n) (output s) ->
              n = wrapInt64 (Z.of_nat (drawn s)))).
Proof.
  split; [apply stateAfter_reachable|].
  apply (attempts_count_draws unicodeLower base58Encode keySource
                              NumCPU cfg s).
  apply stateAfter_reachable.
Defined.

(** X6 at the end of the scenario run. *)
Lemma run_prints_six_lines_witness :
  reachable s /\
  ((forall e, coord s = CExit (Some e) -> output s = []) /\
   ((forall e, coord s <> CReturn e /\ coord s <> CExit e) ->
    output s = [] \/ output s = [LStarted]) /\
   (coord s = CExit None ->
    exists i r text,
      head (sent s) = Some (i, r) /\
      privateKeyToJSON (ResPrivateKey r) = inl text /\
      output s = [ LStarted; LFound (Address r);
                   LAttempts (totalIterations s);
                   LPublicKey (Address r);
                   LPrivateKey (base58Encode (ResPrivateKey r));
                   LPrivateKeyJSON text ])).
Proof.
  split; [apply stateAfter_reachable|].
  apply (run_prints_six_lines unicodeLower base58Encode keySource
                              NumCPU cfg s).
  apply stateAfter_reachable.
Defined.

End SoloRunMore.

Section RaceRunMore.

Local Abbreviation unicodeLower := Demo.noUnicode.
Local Abbreviation base58Encode := Base58.Encode.
Local Abbreviation keySource := Demo.zeroKeys.
Local Abbreviation NumCPU := 2%Z.
Local Abbreviation cfg := Demo.cfgOne.
Local Abbreviation step :=
  (step unicodeLower base58Encode keySource NumCPU cfg).
Local Abbreviation reachable :=
  (reachable unicodeLower base58Encode keySource NumCPU cfg).
Local Abbreviation s :=
  (stateAfter unicodeLower base58Encode keySource NumCPU cfg
              Demo.raceScheduleOn).

(** X3 at the end of the race of two workers. *)
Lemma cancel_follows_send_witness :
  reachable s /\
  ((ctxDone s = true -> sent s <> []) /\
   (forall i pc, workers s !! i = Some pc -> hasReturned pc = true ->
                 ctxDone s = true /\ sent s <> [])).
Proof.
  split; [apply stateAfter_reachable|].
  apply (cancel_follows_send unicodeLower base58Encode keySource
                             NumCPU cfg s).
  apply stateAfter_reachable.
Defined.

(** X7 at the end of the race, where the coordinator waits for two
    workers that have not ended. *)
Lemma search_never_deadlocks_witness :
  (1 <= NumCPU)%Z /\ reachable s /\
  (forall e, coord s <> CExit e) /\
  exists a s', step a s = Some s'.
Proof.
  assert (Hne : forall e, coord s <> CExit e)
    by (intros e H; vm_compute in H; discriminate H).
  split; [lia|]. split; [apply stateAfter_reachable|].
  split; [exact Hne|].
  apply (search_never_deadlocks unicodeLower base58Encode keySource
                                NumCPU cfg s);
    [lia|apply stateAfter_reachable|exact Hne].
Defined.

End RaceRunMore.

Section IdleRun.

Local Abbreviation unicodeLower := Demo.noUnicode.
Local Abbreviation base58Encode := Base58.Encode.
Local Abbreviation keySource := DemoMore.neverKeys.
Local Abbreviation NumCPU := 2%Z.
Local Abbreviation cfg := Demo.cfgOne.
Local Abbreviation reachable :=
  (reachable unicodeLower base58Encode keySource NumCPU cfg).
Local Abbreviation exec := (exec unicodeLower base58Encode keySource NumCPU cfg).
Local Abbreviation s :=
  (stateAfter unicodeLower base58Encode keySource NumCPU cfg
              DemoMore.idleSchedule).

(** X8 after three attempts of two workers without entropy. *)
Lemma failing_entropy_keeps_counting_witness :
  (forall n, keySource n = None) /\ reachable s /\
  ((forall i pc, workers s !! i = Some pc ->
                 pc = WCheck \/ pc = WCount \/ pc = WGenerate) /\
   sent s = [] /\ resultCh s = [] /\ ctxDone s = false /\
   receivedCount (coord s) = 0 /\
   totalIterations s
   = wrapInt64 (Z.of_nat (drawn s + countPC isGenerating (workers s))) /\
   (forall i pc, workers s !! i = Some pc ->
      exists sched s',
        exec sched s = Some s' /\ length sched <= 3 /\
        Forall (fun a => exists c, a = Work i c) sched /\
        totalIterations s' = wrapInt64 (totalIterations s + 1) /\
        workers s' !! i = Some WGenerate)).
Proof.
  split; [reflexivity|]. split; [apply stateAfter_reachable|].
  apply (failing_entropy_keeps_counting unicodeLower base58Encode keySource
                                        NumCPU cfg s);
    [reflexivity|apply stateAfter_reachable].
Defined.

Example idle_run_counts :
  totalIterations s = 3%Z /\ drawn s = 2 /\ coord s = CReceive.
Proof. vm_compute. repeat split. Qed.

End IdleRun.

(** X9 at the address of the scenario. *)
Lemma case_insensitive_accepts_more_witness :
  isASCII "AAAxyz123" = true /\
  matches Demo.noUnicode "AAAxyz123" (mkConfig "AAA" "123" true) = true /\
  matches Demo.noUnicode "AAAxyz123" (mkConfig "AAA" "123" false) = true.
Proof.
  split; [reflexivity|]. split; [reflexivity|].
  apply (case_insensitive_accepts_more Demo.noUnicode "AAAxyz123"
                                       "AAA" "123");
    reflexivity.
Defined.

(** X10 at the address of the scenario. *)
Lemma match_needs_room_witness :
  (caseSensitive (mkConfig "AAA" "123" true) = true \/
   (isASCII "AAAxyz123" = true
    /\ isASCII (prefix (mkConfig "AAA" "123" true)) = true
    /\ isASCII (postfix (mkConfig "AAA" "123" true)) = true)) /\
  matches Demo.noUnicode "AAAxyz123" (mkConfig "AAA" "123" true) = true /\
  ((prefix (mkConfig "AAA" "123" true) <> "" ->
    String.length (prefix (mkConfig "AAA" "123" true))
    <= String.length "AAAxyz123") /\
   (postfix (mkConfig "AAA" "123" true) <> "" ->
    String.length (postfix (mkConfig "AAA" "123" true))
    <= String.length "AAAxyz123")).
Proof.
  split; [now left|]. split; [reflexivity|].
  apply (match_needs_room Demo.noUnicode "AAAxyz123"
                          (mkConfig "AAA" "123" true));
    [now left|reflexivity].
Defined.

(** X11 at a key of two bytes. *)
Lemma privateKeyToJSON_injective_witness :
  privateKeyToJSON [x01; xff] = privateKeyToJSON [x01; xff] /\
  [x01; xff] = [x01; xff] :> PrivateKey.
Proof.
  split; [reflexivity|].
  apply (privateKeyToJSON_injective [x01; xff] [x01; xff]). reflexivity.
Defined.
